(** * Radiance panel analytics API (server.js): a shallow embedding

    The handlers of [server.js] are SQL queries over the ledger view
    [analytics.radiance_base_v1] (left-joined with the reconciliation view
    [analytics.radiance_invoice_reconcile_v1]) followed by a JavaScript
    post-processing step.  Each query is embedded here as list processing
    over the joined rows: [WHERE] as [filter], [GROUP BY] as [group_by],
    aggregates as folds, [COUNT(DISTINCT ...)] as the length of a [nodup].

    Encodings:
    - SQL [numeric] amounts and percentages are exact rationals [Q];
      the JSON numbers printed from them are read as decimals, so the
      JavaScript arithmetic on them is also done in [Q].
    - a calendar date is the integer [yyyymmdd]; date comparison is integer
      comparison and [DATE_TRUNC('month', d)] is [d / 100 * 100 + 1].
    - an SQL [NULL] is [None]. *)

From Stdlib Require Import List String Ascii Bool ZArith QArith Qround Lia Lqa Sorting Permutation.
Import ListNotations.
Open Scope string_scope.

(** ** Generic SQL helpers *)

Section GroupBy.
Context {K A : Type} (eqb : K -> K -> bool) (key : A -> K).

  (** [insert_group k a gs] adds row [a] to the group of key [k]. *)
Fixpoint insert_group (k : K) (a : A) (gs : list (K * list A)) :
      list (K * list A) :=
    match gs with
    | [] => [(k, [a])]
    | (k', ms) :: t =>
        if eqb k' k then (k', a :: ms) :: t else (k', ms) :: insert_group k a t
    end.

  (** [GROUP BY key]: one entry per key present, with its rows. *)
Fixpoint group_by (l : list A) : list (K * list A) :=
    match l with
    | [] => []
    | a :: l' => insert_group (key a) a (group_by l')
    end.

Fixpoint assoc (k : K) (gs : list (K * list A)) : option (list A) :=
    match gs with
    | [] => None
    | (k', ms) :: t => if eqb k' k then Some ms else assoc k t
    end.

End GroupBy.

(** [SUM(...)] over the rows, [0] on no rows (the code always wraps sums in
    [COALESCE] or reads them through [Number(x || 0)]). *)
Definition Qsum (l : list Q) : Q := fold_right Qplus 0 l.

(** [COUNT(DISTINCT u)] over user ids. *)
Definition count_distinct (l : list nat) : nat := List.length (nodup Nat.eq_dec l).

(** Postgres [ROUND(x, 2)] on [numeric]: half away from zero. *)
Definition pg_round2 (x : Q) : Q :=
  if Qle_bool 0 x then inject_Z (Qfloor (x * 100 + (1 # 2))) / 100
  else - (inject_Z (Qfloor (- x * 100 + (1 # 2))) / 100).

(** JavaScript [Math.round(x * 100) / 100]: [Math.round] rounds half up. *)
Definition js_round_cents (x : Q) : Q :=
  inject_Z (Qfloor (x * 100 + (1 # 2))) / 100.

(** [NULLIF(d, 0)] as a divisor: the quotient is [NULL] when [d = 0]. *)
Definition div_nullif (n d : Q) : option Q :=
  if Qeq_bool d 0 then None else Some (n / d).

(** [Number(v)] on a value read from a [pg] row: [Number(null)] is [0]. *)
Definition js_number (v : option Q) : Q :=
  match v with Some q => q | None => 0 end.

(** ** Ledger rows *)

(** A reconciliation status as seen through the [LEFT JOIN]: [None] when no
    reconciliation record matches the line's [cufe], [Some None] for a record
    whose [reconcile_ok] is [NULL], [Some (Some b)] otherwise. *)
Definition recon := option (option bool).

Record Line := mkLine {
  l_user : option nat;          (* user_id *)
  l_cufe : nat;                 (* cufe (invoice id) *)
  l_date : Z;                   (* invoice_date as yyyymmdd *)
  l_issuer : string;            (* issuer_ruc *)
  l_issuer_name : option string;(* issuer_name *)
  l_cat : option string;        (* the category column selected by the handler *)
  l_brand : option string;      (* product_brand *)
  l_total : option Q;           (* line_total *)
  l_rec : recon                 (* r.reconcile_ok through the LEFT JOIN *)
}.

(** [b.invoice_date >= $1::date AND b.invoice_date < $2::date] *)
Definition in_window (start end_ : Z) (ln : Line) : bool :=
  (start <=? l_date ln)%Z && (l_date ln <? end_)%Z.

(** [COALESCE(r.reconcile_ok, false)] *)
Definition coalesce_rec (r : recon) : bool :=
  match r with Some (Some b) => b | _ => false end.

(** [($3::boolean IS NULL OR COALESCE(r.reconcile_ok, false) = $3)] *)
Definition recon_pass (f : option bool) (ln : Line) : bool :=
  match f with
  | None => true
  | Some b => Bool.eqb (coalesce_rec (l_rec ln)) b
  end.

(** [COALESCE(x, 'UNKNOWN')] *)
Definition coalesce_unknown (v : option string) : string :=
  match v with Some s => s | None => "UNKNOWN" end.

(** [COALESCE(b.line_total, 0)] *)
Definition line_amount (ln : Line) : Q :=
  match l_total ln with Some q => q | None => 0 end.

Definition user_of (ln : Line) : nat :=
  match l_user ln with Some u => u | None => 0 end.

Definition has_user (ln : Line) : bool :=
  match l_user ln with Some _ => true | None => false end.

(** ** [normDim] *)

(** Characters removed by [String.prototype.trim] (ASCII part). *)
Definition is_js_space (c : ascii) : bool :=
  let n := nat_of_ascii c in
  Nat.eqb n 32 || Nat.eqb n 9 || Nat.eqb n 10 || Nat.eqb n 11 ||
  Nat.eqb n 12 || Nat.eqb n 13.

Fixpoint trim_left (s : string) : string :=
  match s with
  | EmptyString => EmptyString
  | String c t => if is_js_space c then trim_left t else s
  end.

Definition js_trim (s : string) : string :=
  string_of_list_ascii
    (rev (list_ascii_of_string
      (trim_left (string_of_list_ascii
        (rev (list_ascii_of_string (trim_left s))))))).

Definition lower_ascii (c : ascii) : ascii :=
  let n := nat_of_ascii c in
  if Nat.leb 65 n && Nat.leb n 90 then ascii_of_nat (n + 32) else c.

Fixpoint js_to_lower (s : string) : string :=
  match s with
  | EmptyString => EmptyString
  | String c t => String (lower_ascii c) (js_to_lower t)
  end.

(** [normDim]: NULL, empty, whitespace or ['null'] normalise to [UNKNOWN]. *)
Definition normDim (v : option string) : string :=
  match v with
  | None => "UNKNOWN"
  | Some s =>
      let trimmed := js_trim s in
      if String.eqb trimmed "" || String.eqb (js_to_lower trimmed) "null"
      then "UNKNOWN" else trimmed
  end.

(** ** Capture: [/api/sow_leakage/by_category] (v2.2) *)
Module Capture.

  (** [peer_scope]; only ['peers'] changes the query, ['all'] and
      ['extended'] add no join and no condition. *)
Inductive PeerScope := All | Peers | Extended.

  (** [public.dim_issuer]: the [issuer_l1] of an issuer, if any. *)
Definition DimIssuer := string -> option string.

  (** [peerScopeWhere]: [AND (b.issuer_ruc = $4 OR di_b.issuer_l1 = di_x.issuer_l1)];
      the [NULL = ...] comparison of a missing [dim_issuer] row is not true. *)
Definition peer_where (scope : PeerScope) (dim : DimIssuer) (x : string)
      (ln : Line) : bool :=
    match scope with
    | Peers =>
        String.eqb (l_issuer ln) x ||
        match dim (l_issuer ln), dim x with
        | Some a, Some b => String.eqb a b
        | _, _ => false
        end
    | _ => true
    end.

  (** [cohort]: distinct users with a qualifying line at the issuer. *)
Definition cohort (s e : Z) (f : option bool) (x : string) (lines : list Line)
      : list nat :=
    nodup Nat.eq_dec
      (map user_of
        (filter (fun ln => in_window s e ln && recon_pass f ln &&
                           String.eqb (l_issuer ln) x && has_user ln) lines)).

Record PeerSpend := mkPS {
    ps_user : nat; ps_cat : string; ps_issuer : string; ps_spend : Q }.

Definition ps_key_eqb (a b : nat * string * string) : bool :=
    let '(u1, c1, i1) := a in let '(u2, c2, i2) := b in
    Nat.eqb u1 u2 && String.eqb c1 c2 && String.eqb i1 i2.

Lemma ps_key_eqb_spec a b : reflect (a = b) (ps_key_eqb a b).
  Proof.
    destruct a as [[u1 c1] i1], b as [[u2 c2] i2]; simpl.
    destruct (Nat.eqb_spec u1 u2), (String.eqb_spec c1 c2),
      (String.eqb_spec i1 i2); simpl; constructor; congruence.
  Qed.

Definition line_key (ln : Line) : nat * string * string :=
    (user_of ln, coalesce_unknown (l_cat ln), l_issuer ln).

  (** [peer_spend]: cohort users' lines, summed per (user, category, issuer). *)
Definition peer_spend (s e : Z) (f : option bool) (x : string)
      (scope : PeerScope) (dim : DimIssuer) (lines : list Line)
      : list PeerSpend :=
    let c := cohort s e f x lines in
    let sel := filter (fun ln => has_user ln &&
                         (if in_dec Nat.eq_dec (user_of ln) c then true else false) &&
                         in_window s e ln && recon_pass f ln &&
                         peer_where scope dim x ln) lines in
    map (fun '(k, ms) => let '(u, cat, iss) := k in
           mkPS u cat iss (Qsum (map line_amount ms)))
        (group_by ps_key_eqb line_key sel).

  (** One capture row as the SQL returns it. *)
Record CatRow := mkCatRow {
    cr_cat : string; cr_users : nat;
    cr_inx : Q; cr_market : Q; cr_leak : Q; cr_sow : option Q }.

Definition in_x_spend (x : string) (p : PeerSpend) : Q :=
    if String.eqb (ps_issuer p) x then ps_spend p else 0.

  (** [grouped]: one row per category value. *)
Definition grouped_row (x : string) (cat : string) (ms : list PeerSpend)
      : CatRow :=
    let inx := Qsum (map (in_x_spend x) ms) in
    let mk := Qsum (map ps_spend ms) in
    mkCatRow cat (count_distinct (map ps_user ms)) inx mk (mk - inx)
      (option_map pg_round2 (div_nullif (100 * inx) mk)).

Definition grouped (x : string) (ps : list PeerSpend) : list CatRow :=
    map (fun '(cat, ms) => grouped_row x cat ms) (group_by String.eqb ps_cat ps).

  (** [CASE WHEN users < $5 THEN 'OTHER_SUPPRESSED' ELSE category_value END] *)
Definition merge_key (k : nat) (r : CatRow) : string :=
    if Nat.ltb (cr_users r) k then "OTHER_SUPPRESSED" else cr_cat r.

Definition merged_row (key : string) (ms : list CatRow) : CatRow :=
    let inx := Qsum (map cr_inx ms) in
    let mk := Qsum (map cr_market ms) in
    mkCatRow key (fold_right Nat.add 0%nat (map cr_users ms)) inx mk
      (Qsum (map cr_leak ms))
      (option_map pg_round2 (div_nullif (100 * inx) mk)).

Definition merge (k : nat) (rs : list CatRow) : list CatRow :=
    map (fun '(key, ms) => merged_row key ms) (group_by String.eqb (merge_key k) rs).

  (** [ORDER BY SUM(spend_in_x_usd) DESC] *)
Fixpoint insert_desc (r : CatRow) (l : list CatRow) : list CatRow :=
    match l with
    | [] => [r]
    | y :: t => if Qle_bool (cr_inx y) (cr_inx r) then r :: l else y :: insert_desc r t
    end.

Fixpoint sort_desc (l : list CatRow) : list CatRow :=
    match l with [] => [] | r :: t => insert_desc r (sort_desc t) end.

  (** The rows returned by [pool.query]. *)
Definition query (s e : Z) (f : option bool) (x : string) (k : nat)
      (scope : PeerScope) (dim : DimIssuer) (lines : list Line) : list CatRow :=
    sort_desc (merge k (grouped x (peer_spend s e f x scope dim lines))).

  (** One element of the JSON [data] array. *)
Record OutRow := mkOut {
    o_cat : string; o_users : nat;
    o_inx : Q; o_market : Q; o_leak : Q; o_sow : Q;
    o_is_unknown : bool; o_trust : option string }.

Definition out_row (r : CatRow) : OutRow :=
    mkOut (cr_cat r) (cr_users r)
      (js_round_cents (cr_inx r)) (js_round_cents (cr_market r))
      (js_round_cents (cr_leak r)) (js_number (cr_sow r))
      (String.eqb (cr_cat r) "UNKNOWN")
      (if String.eqb (cr_cat r) "UNKNOWN" then Some "SUPPRESSED" else None).

Definition capture (s e : Z) (f : option bool) (x : string) (k : nat)
      (scope : PeerScope) (dim : DimIssuer) (lines : list Line) : list OutRow :=
    map out_row (query s e f x k scope dim lines).

End Capture.

(** ** [/api/kpis/summary] (v2.2): the share-of-wallet field *)
Module Kpis.

  (** [CASE WHEN m.spend_market > 0 THEN 100.0 * k.ventas / m.spend_market
      ELSE 0 END]; a [NULL] market (no rows) falls to the [ELSE]. *)
Definition sow_sql (ventas market : option Q) : option Q :=
    match market with
    | Some m =>
        if negb (Qle_bool m 0) then option_map (fun v => 100 * v / m) ventas else Some 0
    | None => Some 0
    end.

  (** [sow_pct: Number(current.sow_pct || 0)] *)
Definition sow_out (ventas market : option Q) : Q :=
    js_number (sow_sql ventas market).

End Kpis.

(** ** Whole-cent amounts *)

Definition is_cents (q : Q) : Prop := exists z : Z, q == inject_Z z / 100.

(** ** Retention waterfall: [/api/leakage/tree] (v2.2) *)
Module Waterfall.

  (** [DATE_TRUNC('month', b.invoice_date)::date] *)
Definition month_of (d : Z) : Z := (d / 100 * 100 + 1)%Z.

Record BaseTxn := mkBT {
    bt_user : nat; bt_month : Z; bt_issuer : string; bt_total : Q; bt_visits : nat }.

Definition bt_key_eqb (a b : nat * Z * string) : bool :=
    let '(u1, m1, i1) := a in let '(u2, m2, i2) := b in
    Nat.eqb u1 u2 && Z.eqb m1 m2 && String.eqb i1 i2.

Definition um_key_eqb (a b : nat * Z) : bool :=
    let '(u1, m1) := a in let '(u2, m2) := b in Nat.eqb u1 u2 && Z.eqb m1 m2.

Definition base_key (ln : Line) : nat * Z * string :=
    (user_of ln, month_of (l_date ln), l_issuer ln).

  (** [base_txn]: qualifying lines of the category, per (user, month, issuer):
      [SUM(COALESCE(line_total, 0))] and [COUNT(DISTINCT cufe)]. *)
Definition base_txn (s e : Z) (f : option bool) (v : string) (lines : list Line)
      : list BaseTxn :=
    let sel := filter (fun ln => in_window s e ln && recon_pass f ln && has_user ln &&
                         String.eqb (coalesce_unknown (l_cat ln)) v) lines in
    map (fun '(k, ms) => let '(u, m, iss) := k in
           mkBT u m iss (Qsum (map line_amount ms))
             (count_distinct (map l_cufe ms)))
        (group_by bt_key_eqb base_key sel).

Fixpoint insert_asc (m : Z) (l : list Z) : list Z :=
    match l with
    | [] => [m]
    | y :: t => if (m <=? y)%Z then m :: l else y :: insert_asc m t
    end.

Fixpoint sort_asc (l : list Z) : list Z :=
    match l with [] => [] | m :: t => insert_asc m (sort_asc t) end.

  (** [months]: the distinct months present, in order. *)
Definition months (bt : list BaseTxn) : list Z :=
    sort_asc (nodup Z.eq_dec (map bt_month bt)).

  (** [month_pairs]: [LEAD(txn_month) OVER (ORDER BY txn_month)]. *)
Fixpoint month_pairs (ms : list Z) : list (Z * option Z) :=
    match ms with
    | [] => []
    | [m] => [(m, None)]
    | m :: ((n :: _) as t) => (m, Some n) :: month_pairs t
    end.

Record UserMonth := mkUM {
    um_user : nat; um_month : Z; um_vx : nat; um_sx : Q; um_vt : nat }.

Definition nat_sum (l : list nat) : nat := fold_right Nat.add 0%nat l.

  (** [user_month]: per (user, month): visits and spend at the issuer, and
      visits anywhere. *)
Definition user_month (x : string) (bt : list BaseTxn) : list UserMonth :=
    map (fun '(k, ms) => let '(u, m) := k in
           mkUM u m
             (nat_sum (map (fun b => if String.eqb (bt_issuer b) x then bt_visits b else 0%nat) ms))
             (Qsum (map (fun b => if String.eqb (bt_issuer b) x then bt_total b else 0) ms))
             (nat_sum (map bt_visits ms)))
        (group_by um_key_eqb (fun b => (bt_user b, bt_month b)) bt).

Definition find_um (ums : list UserMonth) (u : nat) (m : Z) : option UserMonth :=
    find (fun r => Nat.eqb (um_user r) u && Z.eqb (um_month r) m) ums.

Record Transition := mkTr {
    tr_user : nat; tr_origin : Z; tr_next : Z;
    vx_o : nat; sx_o : Q; vx_n : nat; sx_n : Q; vt_n : nat }.

  (** [transitions]: every cohort row [(user, origin)] (visits at the issuer
      in [origin]) joined with its month pair whose [next] is not [NULL];
      the [LEFT JOIN]s read missing user-months as zeros. *)
Definition transitions (x : string) (bt : list BaseTxn) : list Transition :=
    let ums := user_month x bt in
    let mps := month_pairs (months bt) in
    let cohort := filter (fun r => Nat.ltb 0 (um_vx r)) ums in
    flat_map (fun c =>
      flat_map (fun '(o, nx) =>
        match nx with
        | Some n =>
            if Z.eqb o (um_month c) then
              let uo := find_um ums (um_user c) o in
              let un := find_um ums (um_user c) n in
              [mkTr (um_user c) o n
                 (match uo with Some r => um_vx r | None => 0%nat end)
                 (match uo with Some r => um_sx r | None => 0 end)
                 (match un with Some r => um_vx r | None => 0%nat end)
                 (match un with Some r => um_sx r | None => 0 end)
                 (match un with Some r => um_vt r | None => 0%nat end)]
            else []
        | None => []
        end) mps) cohort.

Inductive Bucket :=
    RETAINED | CATEGORY_GONE | REDUCED_BASKET | REDUCED_FREQ | DELAYED_ONLY | FULL_CHURN.

Definition bucket_eqb (a b : Bucket) : bool :=
    match a, b with
    | RETAINED, RETAINED | CATEGORY_GONE, CATEGORY_GONE
    | REDUCED_BASKET, REDUCED_BASKET | REDUCED_FREQ, REDUCED_FREQ
    | DELAYED_ONLY, DELAYED_ONLY | FULL_CHURN, FULL_CHURN => true
    | _, _ => false
    end.

  (** [buckets]: the SQL [CASE], branch by branch. *)
Definition classify (t : Transition) : Bucket :=
    if Nat.ltb 0 (vx_n t) && Qle_bool (sx_o t * (9 # 10)) (sx_n t) then RETAINED
    else if Nat.ltb 0 (vt_n t) && Nat.eqb (vx_n t) 0 then CATEGORY_GONE
    else if Nat.ltb 0 (vx_n t) && negb (Qle_bool (sx_o t * (1 # 2)) (sx_n t))
      then REDUCED_BASKET
    else if Nat.ltb 0 (vx_n t) && Nat.ltb (vx_n t) (vx_o t) then REDUCED_FREQ
    else if Nat.eqb (vt_n t) 0 then FULL_CHURN
    else DELAYED_ONLY.

  (** One row of the final [SELECT bucket, COUNT( * ) AS users, ROUND(...) AS pct
      FROM buckets GROUP BY bucket]. *)
Record SqlRow := mkSqlRow { sr_bucket : Bucket; sr_users : nat; sr_pct : option Q }.

Definition sql_rows (trs : list Transition) : list SqlRow :=
    let gs := group_by bucket_eqb classify trs in
    let total := nat_sum (map (fun g => List.length (snd g)) gs) in
    map (fun '(b, ms) =>
           mkSqlRow b (List.length ms)
             (option_map pg_round2
                (div_nullif (100 * inject_Z (Z.of_nat (List.length ms)))
                            (inject_Z (Z.of_nat total)))))
        gs.

  (** [rows.forEach(r => { bucketMap[r.bucket] = ... })]: the last row of a
      bucket is the one kept. *)
Definition bucket_map (rows : list SqlRow) (b : Bucket) : option (nat * Q) :=
    fold_left (fun acc r => if bucket_eqb (sr_bucket r) b
                            then Some (sr_users r, js_number (sr_pct r)) else acc)
              rows None.

Definition bucketOrder : list Bucket :=
    [RETAINED; CATEGORY_GONE; REDUCED_BASKET; REDUCED_FREQ; DELAYED_ONLY; FULL_CHURN].

Record WRow := mkWRow { w_bucket : Bucket; w_users : nat; w_pct : Q }.

  (** [waterfall: bucketOrder.map(b => ({ bucket: b,
        users: bucketMap[b]?.users || 0, pct: bucketMap[b]?.pct || 0 }))] *)
Definition waterfall_of_rows (rows : list SqlRow) : list WRow :=
    map (fun b => match bucket_map rows b with
                  | Some (u, p) => mkWRow b u p
                  | None => mkWRow b 0%nat 0
                  end) bucketOrder.

Definition waterfall (s e : Z) (f : option bool) (x v : string) (lines : list Line)
      : list WRow :=
    waterfall_of_rows (sql_rows (transitions x (base_txn s e f v lines))).

Definition sum_users (w : list WRow) : nat := nat_sum (map w_users w).
Definition sum_pct (w : list WRow) : Q := Qsum (map w_pct w).

  (** Spec-side reading (section 4.6): [cohort_size] of an origin month is
      the number of distinct users transitioning from it. *)
Definition cohort_size (trs : list Transition) (m : Z) : nat :=
    count_distinct (map tr_user (filter (fun t => Z.eqb (tr_origin t) m) trs)).

  (** Spec-side reading (section 4.6): the six rules, evaluated in the order
      listed, first match wins, with [DELAYED_ONLY] as the fallback. *)
Definition spec_rules : list (Bucket * (Transition -> bool)) :=
    [ (RETAINED, fun t => Nat.ltb 0 (vx_n t) && Qle_bool ((9 # 10) * sx_o t) (sx_n t));
      (CATEGORY_GONE, fun t => Nat.ltb 0 (vt_n t) && Nat.eqb (vx_n t) 0);
      (REDUCED_BASKET, fun t => Nat.ltb 0 (vx_n t) && negb (Qle_bool ((1 # 2) * sx_o t) (sx_n t)));
      (REDUCED_FREQ, fun t => Nat.ltb 0 (vx_n t) && Nat.ltb (vx_n t) (vx_o t));
      (FULL_CHURN, fun t => Nat.eqb (vt_n t) 0) ].

Fixpoint first_match (rules : list (Bucket * (Transition -> bool))) (t : Transition)
      : Bucket :=
    match rules with
    | [] => DELAYED_ONLY
    | (b, p) :: rs => if p t then b else first_match rs t
    end.

End Waterfall.

(** ** Loyalty: [/api/loyalty/brands] (v2.2), from [brand_agg] on *)
Module Loyalty.

  (** One row of the [brand_agg] CTE. *)
Record BrandAgg := mkBA {
    ba_brand : string; ba_buyers : nat; ba_pen : option Q; ba_p75 : option Q;
    ba_loyal : nat }.

  (** [CASE WHEN brand_buyers < $6 AND brand != 'UNKNOWN'
        THEN 'OTHER_SUPPRESSED' ELSE brand END] *)
Definition merge_key (k : nat) (r : BrandAgg) : string :=
    if Nat.ltb (ba_buyers r) k && negb (String.eqb (ba_brand r) "UNKNOWN")
    then "OTHER_SUPPRESSED" else ba_brand r.

  (** [AVG(x)]: the mean of the non-[NULL] values, [NULL] if there are none. *)
Definition sql_avg (l : list (option Q)) : option Q :=
    let xs := flat_map (fun o => match o with Some q => [q] | None => [] end) l in
    match xs with
    | [] => None
    | _ => Some (Qsum xs / inject_Z (Z.of_nat (List.length xs)))
    end.

Record BrandRow := mkBR {
    br_brand : string; br_buyers : nat; br_pen : option Q; br_p75 : option Q;
    br_loyal : nat }.

  (** [brand_final] *)
Definition brand_final (k : nat) (aggs : list BrandAgg) : list BrandRow :=
    map (fun '(b, ms) =>
           mkBR b (fold_right Nat.add 0%nat (map ba_buyers ms))
             (option_map pg_round2 (sql_avg (map ba_pen ms)))
             (option_map pg_round2 (sql_avg (map ba_p75 ms)))
             (fold_right Nat.add 0%nat (map ba_loyal ms)))
        (group_by String.eqb (merge_key k) aggs).

Record OutRow := mkOut {
    o_brand : string; o_buyers : nat; o_is_unknown : bool; o_trust : option string }.

  (** The [data] array (the order of the rows does not matter here). *)
Definition loyalty_data (k : nat) (aggs : list BrandAgg) : list OutRow :=
    map (fun r => mkOut (br_brand r) (br_buyers r) (String.eqb (br_brand r) "UNKNOWN")
                    (if String.eqb (br_brand r) "UNKNOWN" then Some "SUPPRESSED" else None))
        (brand_final k aggs).

End Loyalty.

(** ** The loyalty section of [/api/deck/commerce] (v2.1) *)
Module DeckLoyalty.

Record BrandAgg := mkBA { ba_brand : string; ba_buyers : nat }.

  (** [ORDER BY CASE brand WHEN 'UNKNOWN' THEN 2 ELSE 1 END, brand_buyers DESC] *)
Definition before (a b : BrandAgg) : bool :=
    let ra := if String.eqb (ba_brand a) "UNKNOWN" then 2%nat else 1%nat in
    let rb := if String.eqb (ba_brand b) "UNKNOWN" then 2%nat else 1%nat in
    Nat.ltb ra rb || (Nat.eqb ra rb && Nat.leb (ba_buyers b) (ba_buyers a)).

Fixpoint insert_by (a : BrandAgg) (l : list BrandAgg) : list BrandAgg :=
    match l with
    | [] => [a]
    | y :: t => if before a y then a :: l else y :: insert_by a t
    end.

Fixpoint sort_by (l : list BrandAgg) : list BrandAgg :=
    match l with [] => [] | a :: t => insert_by a (sort_by t) end.

  (** One row of [loyaltyQuery]: [eligible_users] is
      [(SELECT COUNT( * ) FROM user_cat_spend)] on every row. *)
Record QRow := mkQ { q_brand : string; q_buyers : nat; q_eligible : nat }.

  (** [FROM brand_agg WHERE brand_buyers >= $6 OR brand = 'UNKNOWN' ... LIMIT 10] *)
Definition query (k : nat) (eligible : nat) (aggs : list BrandAgg) : list QRow :=
    map (fun a => mkQ (ba_brand a) (ba_buyers a) eligible)
      (firstn 10 (sort_by (filter (fun a => Nat.leb k (ba_buyers a) ||
                                            String.eqb (ba_brand a) "UNKNOWN") aggs))).

Record DataRow := mkD { d_brand : string; d_buyers : nat; d_trust : option string }.

Record Section_ := mkSec {
    dl_data : list DataRow; dl_category : option string; dl_trust : option string }.

Definition trust_of (eligible : nat) : string :=
    if Nat.ltb eligible 10 then "SUPPRESSED"
    else if Nat.ltb eligible 30 then "LOW"
    else if Nat.ltb eligible 100 then "MEDIUM" else "HIGH".

  (** The JavaScript that builds [loyalty] from the query rows. *)
Definition loyalty_section (topCategory : option string) (rows : list QRow) : Section_ :=
    match topCategory with
    | None => mkSec [] topCategory None
    | Some _ =>
        match rows with
        | [] => mkSec [] topCategory None
        | first :: _ =>
            mkSec (map (fun r => mkD (q_brand r) (q_buyers r)
                                   (if String.eqb (q_brand r) "UNKNOWN"
                                    then Some "SUPPRESSED" else None)) rows)
                  topCategory (Some (trust_of (q_eligible first)))
        end
    end.

End DeckLoyalty.

(** ** Switching destinations: [/api/switching/destinations] (v2.1) *)
Module Switching.

  (** [cohort]: no reconciliation join and no reconciliation condition. *)
Definition cohort (s e : Z) (x : string) (lines : list Line) : list nat :=
    nodup Nat.eq_dec
      (map user_of (filter (fun ln => in_window s e ln && String.eqb (l_issuer ln) x &&
                                      has_user ln) lines)).

  (** [COALESCE(b.issuer_name, b.issuer_ruc) AS destination] *)
Definition destination (ln : Line) : string :=
    match l_issuer_name ln with Some n => n | None => l_issuer ln end.

  (** [elsewhere]: cohort users' lines at other issuers. *)
Definition elsewhere (s e : Z) (f : option bool) (x : string) (lines : list Line)
      : list (nat * string) :=
    let c := cohort s e x lines in
    map (fun ln => (user_of ln, destination ln))
      (filter (fun ln => has_user ln &&
                 (if in_dec Nat.eq_dec (user_of ln) c then true else false) &&
                 in_window s e ln && recon_pass f ln &&
                 negb (String.eqb (l_issuer ln) x)) lines).

Record Row := mkRow { r_dest : string; r_users : nat; r_pct : option Q }.

Fixpoint insert_desc (r : Row) (l : list Row) : list Row :=
    match l with
    | [] => [r]
    | y :: t => if Nat.leb (r_users y) (r_users r) then r :: l else y :: insert_desc r t
    end.

Fixpoint sort_desc (l : list Row) : list Row :=
    match l with [] => [] | r :: t => insert_desc r (sort_desc t) end.

  (** [SELECT destination, COUNT(DISTINCT user_id) AS users, ROUND(...) AS pct
      FROM elsewhere GROUP BY destination HAVING COUNT(DISTINCT user_id) >= $5
      ORDER BY users DESC LIMIT 15] *)
Definition query (s e : Z) (f : option bool) (x : string) (k : nat)
      (lines : list Line) : list Row :=
    let n := List.length (cohort s e x lines) in
    firstn 15 (sort_desc
      (filter (fun r => Nat.leb k (r_users r))
        (map (fun '(d, ms) =>
                let u := count_distinct (map fst ms) in
                mkRow d u (option_map pg_round2
                             (div_nullif (100 * inject_Z (Z.of_nat u))
                                         (inject_Z (Z.of_nat n)))))
             (group_by String.eqb snd (elsewhere s e f x lines))))).

Record OutRow := mkOut { o_dest : string; o_users : nat; o_pct : Q }.

Definition switching (s e : Z) (f : option bool) (x : string) (k : nat)
      (lines : list Line) : list OutRow :=
    map (fun r => mkOut (r_dest r) (r_users r) (js_number (r_pct r))) (query s e f x k lines).

End Switching.

(** ** [parseFilters] (v2.2), as used by [/api/sow_leakage/by_category] *)
Module Filters.

  (** The parsed request: [parseDate] gives [None] for a missing or
      unparseable date; [parseString] gives [None] for a missing or blank
      string. *)
Record Request := mkReq {
    q_start : option Z; q_end : option Z; q_issuer : option string;
    q_category_value : option string }.

  (** The [invalid] list of [parseFilters]. *)
Definition invalid (requireIssuer requireDates requireCategoryValue : bool)
      (q : Request) : list string :=
    (if requireDates then
       (match q_start q with None => ["start"] | Some _ => [] end) ++
       (match q_end q with None => ["end"] | Some _ => [] end)
     else []) ++
    (if requireIssuer then match q_issuer q with None => ["issuer_ruc"] | Some _ => [] end
     else []) ++
    (if requireCategoryValue then
       match q_category_value q with None => ["category_value"] | Some _ => [] end
     else []).

Inductive Response (A : Type) := BadRequest (fields : list string) | Ok (payload : A).
Arguments BadRequest {A} fields.
Arguments Ok {A} payload.

  (** The capture handler: [400] on an invalid request, otherwise the rows. *)
Definition capture_handler (f : option bool) (k : nat) (lines : list Line)
      (q : Request) : Response (list Capture.OutRow) :=
    match invalid true true false q with
    | [] =>
        match q_start q, q_end q, q_issuer q with
        | Some s, Some e, Some x => Ok (Capture.capture s e f x k Capture.All (fun _ => None) lines)
        | _, _, _ => BadRequest []
        end
    | fs => BadRequest fs
    end.

End Filters.

(** ** Request-parameter helpers (v2.2 [server.js], and the legacy copies of
    [part_001]).  Strings are taken to be ASCII. *)
Module Params.

(** A JavaScript value as these helpers receive it ([req.query.x] is a
    string or [undefined]). *)
Inductive JsVal := JUndef | JNull | JBool (b : bool) | JStr (s : string).

(** [String(v)] *)
Definition js_to_string (v : JsVal) : string :=
  match v with
  | JUndef => "undefined" | JNull => "null"
  | JBool true => "true" | JBool false => "false"
  | JStr s => s
  end.

(** [parseString]: [(typeof val === 'string' && val.trim()) ? val.trim() : null] *)
Definition parseString (v : JsVal) : option string :=
  match v with
  | JStr s => if String.eqb (js_trim s) "" then None else Some (js_trim s)
  | _ => None
  end.

(** [parseBool(val, defaultVal)]; the result is [true], [false] or the
    default (here a nullable boolean, like [FILTER_DEFAULTS.reconcile_ok]). *)
Definition parseBool (v : JsVal) (defaultVal : option bool) : option bool :=
  match v with
  | JUndef | JNull => defaultVal
  | JBool b => Some b
  | JStr s =>
      if String.eqb s "" then defaultVal
      else if String.eqb s "true" || String.eqb s "1" then Some true
      else if String.eqb s "false" || String.eqb s "0" then Some false
      else defaultVal
  end.

(** The legacy [parseBool(val)] of [part_001]: ['all'] also means [null]. *)
Definition parseBool_legacy (v : JsVal) : option bool :=
  match v with
  | JUndef | JNull => None
  | JBool b => Some b
  | JStr s =>
      if String.eqb s "" || String.eqb s "all" then None
      else if String.eqb s "true" || String.eqb s "1" then Some true
      else if String.eqb s "false" || String.eqb s "0" then Some false
      else None
  end.

(** The value of a character as a digit of radix up to 36 ([36] when it is
    no digit at all). *)
Definition digit_val (c : ascii) : Z :=
  let n := Z.of_nat (nat_of_ascii c) in
  if (48 <=? n)%Z && (n <=? 57)%Z then (n - 48)%Z
  else if (97 <=? n)%Z && (n <=? 122)%Z then (n - 87)%Z
  else if (65 <=? n)%Z && (n <=? 90)%Z then (n - 55)%Z
  else 36%Z.

(** The longest prefix of radix-[r] digits. *)
Fixpoint digits (r : Z) (s : string) : list Z :=
  match s with
  | EmptyString => []
  | String c t => if (digit_val c <? r)%Z then digit_val c :: digits r t else []
  end.

Definition digits_value (r : Z) (ds : list Z) : Z :=
  fold_left (fun acc d => acc * r + d)%Z ds 0%Z.

(** [parseInt(s)] with no radix: leading white space, an optional sign, a
    [0x]/[0X] prefix for radix 16, then the longest run of digits; [None] is
    [NaN].  The value is exact (a double holds it exactly up to 2^53). *)
Definition js_parseInt (s : string) : option Z :=
  let s1 := trim_left s in
  let '(sign, s2) :=
    match s1 with
    | String c t =>
        if Ascii.eqb c "-"%char then ((-1)%Z, t)
        else if Ascii.eqb c "+"%char then (1%Z, t) else (1%Z, s1)
    | EmptyString => (1%Z, s1)
    end in
  let '(r, s3) :=
    match s2 with
    | String c0 (String c t) =>
        if Ascii.eqb c0 "0"%char && (Ascii.eqb c "x"%char || Ascii.eqb c "X"%char)
        then (16%Z, t) else (10%Z, s2)
    | _ => (10%Z, s2)
    end in
  match digits r s3 with
  | [] => None
  | ds => Some (sign * digits_value r ds)%Z
  end.

(** [parseKThreshold]: [parseInt(val)], [FILTER_DEFAULTS.k_threshold = 5]
    when [NaN] or below 1. *)
Definition parseKThreshold (v : JsVal) : Z :=
  match js_parseInt (js_to_string v) with
  | None => 5%Z
  | Some k => if (k <? 1)%Z then 5%Z else k
  end.

(** Decimal digits of [n >= 0], most significant first, prepended to [acc]. *)
Fixpoint dec_digits (fuel : nat) (n : Z) (acc : list Z) : list Z :=
  match fuel with
  | O => acc
  | S f => if (n <? 10)%Z then n :: acc else dec_digits f (n / 10) ((n mod 10)%Z :: acc)
  end.

Definition digit_char (d : Z) : ascii := ascii_of_nat (Z.to_nat (48 + d)).

(** [String(n)] for an integer [n] with [|n| <= 2^53]: such a number is a
    double exactly and prints as its decimal digits.  Beyond 2^53 [String]
    prints the shortest digits of the nearest double, and from 10^21 on it
    uses exponent notation, so this definition is used within the bound only. *)
Definition js_string_of_Z (z : Z) : string :=
  let body := string_of_list_ascii
                (map digit_char (dec_digits (S (Z.to_nat (Z.log2 (Z.abs z)))) (Z.abs z) [])) in
  if (z <? 0)%Z then String "-" body else body.

(** [app.js] [syncFiltersFromUI]: [parseInt($('#filterKThreshold').value) || 5]
    ([NaN] and [0] are falsy). *)
Definition client_k (input : string) : Z :=
  match js_parseInt input with
  | Some k => if Z.eqb k 0 then 5%Z else k
  | None => 5%Z
  end.

End Params.

(** ** Display helpers of the dashboard clients ([part_000], [part_001],
    [public/app.js]).  A numeric argument is given by the value [Number(x)]
    has for it ([None] for [NaN]); arithmetic is exact. *)
Module Client.

(** [Number(x) || d]: [0] and [NaN] are falsy. *)
Definition num_or (x : option Q) (d : Q) : Q :=
  match x with Some q => if Qeq_bool q 0 then d else q | None => d end.

(** [calculateTrustLevel(users, coverage, reconcile)] *)
Definition calculateTrustLevel (users coverage reconcile : option Q) : string :=
  let u := num_or users 0 in
  let c := num_or coverage 0 in
  let r := num_or reconcile 100 in
  if Qle_bool 10 u && Qle_bool 80 c && Qle_bool 90 r then "HIGH"
  else if Qle_bool 5 u && Qle_bool 60 c then "MEDIUM"
  else "LOW".

Definition trust_rank (t : string) : nat :=
  if String.eqb t "HIGH" then 2 else if String.eqb t "MEDIUM" then 1 else 0.

(** [value >= t] on a number: false when it is [NaN]. *)
Definition js_ge (v : option Q) (t : Q) : bool :=
  match v with Some q => Qle_bool t q | None => false end.

(** [getDqStatus(value, threshold)] *)
Definition getDqStatus (value : option Q) (threshold : Q) : string :=
  if js_ge value threshold then "good"
  else if js_ge value (threshold - 10) then "warning"
  else "bad".

Definition dq_rank (s : string) : nat :=
  if String.eqb s "good" then 2 else if String.eqb s "warning" then 1 else 0.

(** The pieces of [formatDelta(current, previous)]: the sign prefix of
    [text], the number printed with [toFixed(1)], and [class]; [None] is
    [{ text: '', class: '' }]. *)
Record Delta := mkDelta { dl_sign : string; dl_value : option Q; dl_class : string }.

Definition formatDelta (current previous : option Q) : option Delta :=
  match previous with
  | None => None
  | Some p =>
      if Qeq_bool p 0 then None
      else
        let delta := option_map (fun c => (c - p) / p * 100) current in
        let pos := js_ge delta 0 in
        Some (mkDelta (if pos then "+" else "") delta
                      (if pos then "positive" else "negative"))
  end.

End Client.

(** ** [getExpansionConfig] / [getExpansionFactor] ([server.js]) *)
Module Expansion.

(** The value [JSON.parse] gives for [PANEL_EXPANSION_OVERRIDES]. *)
#[warnings="-register-all"]
Inductive Json :=
  | JNum (q : Q) | JStr (s : string) | JBool (b : bool) | JNull
  | JArr (l : list Json) | JObj (kvs : list (string * Json)).

(** JavaScript truthiness of a property value; [None] is [undefined]. *)
Definition truthy (v : option Json) : bool :=
  match v with
  | None | Some JNull => false
  | Some (JNum q) => negb (Qeq_bool q 0)
  | Some (JStr s) => negb (String.eqb s "")
  | Some (JBool b) => b
  | Some (JArr _) | Some (JObj _) => true
  end.

(** [o[key]] for a key of the form ['prefix:...'] (never an array index nor
    an inherited property name): the last binding of a parsed object,
    [undefined] on any other non-null value; [None] is the [TypeError] of a
    property read on [null]. *)
Definition get (o : Json) (key : string) : option (option Json) :=
  match o with
  | JNull => None
  | JObj kvs =>
      Some (option_map snd (find (fun kv => String.eqb (fst kv) key) (rev kvs)))
  | _ => Some None
  end.

(** [getExpansionConfig]: [parseFloat(PANEL_EXPANSION_FACTOR_DEFAULT) || 100]
    (the [parseFloat] result given, [None] for [NaN]) and the overrides:
    [{}] when the variable is unset or empty ([None]) or when [JSON.parse]
    throws ([Some None]). *)
Definition config_default (parsedDefault : option Q) : Q := Client.num_or parsedDefault 100.

Definition config_overrides (env : option (option Json)) : Json :=
  match env with Some (Some j) => j | _ => JObj [] end.

Definition js_truthy_str (s : option string) : bool :=
  match s with Some v => negb (String.eqb v "") | None => false end.

(** The result of [getExpansionFactor(issuerRuc, categoryL1)]: [Some]
    [(factor, source)], or [None] when it throws. *)
Definition getExpansionFactor (parsedDefault : option Q) (env : option (option Json))
    (issuerRuc categoryL1 : option string) : option (Json * string) :=
  let ov := config_overrides env in
  let by_issuer :=
    if js_truthy_str issuerRuc then
      get ov ("issuer_ruc:" ++ match issuerRuc with Some r => r | None => "" end)
    else Some None in
  match by_issuer with
  | None => None
  | Some vi =>
      if truthy vi then option_map (fun v => (v, "override:issuer_ruc")) vi
      else
        let by_cat :=
          if js_truthy_str categoryL1 then
            get ov ("category_l1:" ++ match categoryL1 with Some c => c | None => "" end)
          else Some None in
        match by_cat with
        | None => None
        | Some vc =>
            if truthy vc then option_map (fun v => (v, "override:category_l1")) vc
            else Some (JNum (config_default parsedDefault), "default")
        end
  end.

End Expansion.

(** ** Drill-down level of [parseFilters] and [resolveCatCol] *)
Module DrillDown.

Definition truthy (s : option string) : bool := Expansion.js_truthy_str s.

(** [let groupByLevel = categoryLevel; if (productPath.l1 && !productPath.l2) ...] *)
Definition groupByLevel (categoryLevel : string) (l1 l2 l3 l4 : option string) : string :=
  if truthy l1 && negb (truthy l2) then "l2"
  else if truthy l2 && negb (truthy l3) then "l3"
  else if truthy l3 && negb (truthy l4) then "l4"
  else if truthy l4 then "l4"
  else categoryLevel.

(** [resolveCatCol(domain, level)] on the domains and levels [parseFilters]
    passes ([CAT_COLS[domain] || CAT_COLS.product], then [d[level] || d.l1]). *)
Definition resolveCatCol (domain level : string) : string :=
  let pre := if String.eqb domain "commerce" then "commerce_" else "category_" in
  if String.eqb level "l1" || String.eqb level "l2" || String.eqb level "l3" ||
     String.eqb level "l4"
  then pre ++ level else pre ++ "l1".

End DrillDown.

(** * Facts about the embedding *)

Section GroupByFacts.
Context {K A : Type} (eqb : K -> K -> bool) (key : A -> K).
Hypothesis eqb_spec : forall x y, reflect (x = y) (eqb x y).

Lemma assoc_insert_group k0 (a : A) gs k :
    assoc eqb k (insert_group eqb k0 a gs) =
    if eqb k0 k then Some (a :: match assoc eqb k gs with Some ms => ms | None => [] end)
    else assoc eqb k gs.
  Proof.
    induction gs as [|[k' ms] t IH]; simpl.
    - destruct (eqb k0 k); reflexivity.
    - destruct (eqb_spec k' k0) as [->|Hne].
      + simpl. destruct (eqb k0 k); reflexivity.
      + simpl. rewrite IH. destruct (eqb_spec k' k) as [->|Hne'].
        * destruct (eqb_spec k0 k) as [->|]; [congruence | reflexivity].
        * reflexivity.
  Qed.

  (** The group of [k] is exactly the rows whose key is [k]. *)
Lemma assoc_group_by l k :
    assoc eqb k (group_by eqb key l) =
    match filter (fun a => eqb (key a) k) l with [] => None | ms => Some ms end.
  Proof.
    induction l as [|a l IH]; simpl; [reflexivity|].
    rewrite assoc_insert_group, IH.
    destruct (eqb (key a) k); [|reflexivity].
    destruct (filter _ l); reflexivity.
  Qed.

Lemma in_insert_group k0 (a : A) gs k ms :
    In (k, ms) (insert_group eqb k0 a gs) ->
    (k = k0 /\ exists ms0, ms = a :: ms0 /\ (ms0 = [] \/ In (k, ms0) gs))
    \/ In (k, ms) gs.
  Proof.
    induction gs as [|[k' ms'] t IH]; simpl.
    - intros [H|[]]. inversion H; subst. left. split; [reflexivity|].
      exists []. auto.
    - destruct (eqb_spec k' k0) as [->|Hne].
      + intros [H|H].
        * inversion H; subst. left. split; [reflexivity|]. exists ms'. auto.
        * right. right. exact H.
      + intros [H|H].
        * right. left. exact H.
        * destruct (IH H) as [[Hk [ms0 [Hm [Hn|Hn]]]]|Hn].
          -- left. split; [exact Hk|]. exists ms0. auto.
          -- left. split; [exact Hk|]. exists ms0. auto.
          -- right. right. exact Hn.
  Qed.

  (** Every group collects rows of its own key only, and is non-empty. *)
Lemma group_by_members l k ms :
    In (k, ms) (group_by eqb key l) ->
    ms <> [] /\ forall a, In a ms -> key a = k /\ In a l.
  Proof.
    revert k ms. induction l as [|a l IH]; simpl; intros k ms H; [contradiction|].
    destruct (in_insert_group _ _ _ _ _ H) as [[Hk [ms0 [-> Hms0]]]|Hin].
    - split; [discriminate|]. intros b [<-|Hb]; [auto|].
      destruct Hms0 as [->|Hms0]; [contradiction|].
      destruct (IH _ _ Hms0) as [_ Hm]. destruct (Hm b Hb). auto.
    - destruct (IH _ _ Hin) as [Hne Hm]. split; [exact Hne|].
      intros b Hb. destruct (Hm b Hb). auto.
  Qed.

End GroupByFacts.

Lemma is_cents_0 : is_cents 0.
Proof. exists 0%Z. reflexivity. Qed.

Lemma is_cents_plus a b : is_cents a -> is_cents b -> is_cents (a + b).
Proof.
  intros [za Ha] [zb Hb]. exists (za + zb)%Z.
  rewrite Ha, Hb, inject_Z_plus. field.
Qed.

Lemma is_cents_minus a b : is_cents a -> is_cents b -> is_cents (a - b).
Proof.
  intros [za Ha] [zb Hb]. exists (za + - zb)%Z.
  rewrite Ha, Hb, inject_Z_plus, inject_Z_opp. field.
Qed.

Lemma is_cents_Qsum {T} (f : T -> Q) l :
  (forall a, In a l -> is_cents (f a)) -> is_cents (Qsum (map f l)).
Proof.
  induction l as [|a l IH]; simpl; intros H.
  - apply is_cents_0.
  - apply is_cents_plus; auto.
Qed.

Lemma Qfloor_half (z : Z) : Qfloor (inject_Z z + (1 # 2)) = z.
Proof.
  unfold Qfloor, inject_Z, Qplus; simpl.
  symmetry. apply Z.div_unique with 1%Z; lia.
Qed.

(** Rounding to cents leaves a whole-cent amount unchanged. *)
Lemma js_round_cents_id q : is_cents q -> js_round_cents q == q.
Proof.
  intros [z Hz]. unfold js_round_cents.
  assert (E : q * 100 + (1 # 2) == inject_Z z + (1 # 2)).
  { rewrite Hz. field. }
  rewrite E, Qfloor_half, Hz. reflexivity.
Qed.

Lemma Qsum_sub {T} (f g h : T -> Q) l :
  (forall a, In a l -> f a == g a - h a) ->
  Qsum (map f l) == Qsum (map g l) - Qsum (map h l).
Proof.
  induction l as [|a l IH]; simpl; intros H.
  - reflexivity.
  - rewrite (H a (or_introl eq_refl)), IH by auto. ring.
Qed.

Module CaptureFacts.
Import Capture.

Lemma insert_desc_In r l y : In y (insert_desc r l) <-> y = r \/ In y l.
  Proof.
    induction l as [|z t IH]; simpl.
    - intuition.
    - destruct (Qle_bool (cr_inx z) (cr_inx r)); simpl; [intuition|].
      rewrite IH. intuition.
  Qed.

Lemma sort_desc_In l y : In y (sort_desc l) <-> In y l.
  Proof.
    induction l as [|z t IH]; simpl; [tauto|].
    rewrite insert_desc_In, IH. intuition.
  Qed.

Lemma merge_In k rs r :
    In r (merge k rs) ->
    exists key ms, r = merged_row key ms /\
      forall m, In m ms -> merge_key k m = key /\ In m rs.
  Proof.
    unfold merge. intros H. apply in_map_iff in H.
    destruct H as [[key ms] [Hr Hin]].
    exists key, ms. split; [symmetry; exact Hr|].
    apply (group_by_members String.eqb (merge_key k) String.eqb_spec rs key ms Hin).
  Qed.

Lemma grouped_In x ps r :
    In r (grouped x ps) ->
    exists cat ms, r = grouped_row x cat ms /\
      forall m, In m ms -> ps_cat m = cat /\ In m ps.
  Proof.
    unfold grouped. intros H. apply in_map_iff in H.
    destruct H as [[cat ms] [Hr Hin]].
    exists cat, ms. split; [symmetry; exact Hr|].
    apply (group_by_members String.eqb ps_cat String.eqb_spec ps cat ms Hin).
  Qed.

Lemma peer_spend_In s e f x scope dim lines p :
    In p (peer_spend s e f x scope dim lines) ->
    exists ms, (forall m, In m ms -> In m lines) /\
      ps_spend p = Qsum (map line_amount ms).
  Proof.
    unfold peer_spend. intros H. apply in_map_iff in H.
    destruct H as [[[[u cat] iss] ms] [Hp Hin]].
    exists ms. split; [|subst p; reflexivity].
    intros m Hm.
    destruct (group_by_members ps_key_eqb line_key ps_key_eqb_spec _ _ _ Hin)
      as [_ Hmem].
    destruct (Hmem m Hm) as [_ Hsel]. apply filter_In in Hsel. tauto.
  Qed.

Lemma grouped_leak x ps r :
    In r (grouped x ps) -> cr_leak r == cr_market r - cr_inx r.
  Proof.
    intros H. destruct (grouped_In x ps r H) as [cat [ms [-> _]]].
    reflexivity.
  Qed.

Lemma query_In s e f x k scope dim lines r :
    In r (query s e f x k scope dim lines) ->
    exists key ms, r = merged_row key ms /\
      forall m, In m ms -> merge_key k m = key /\
        In m (grouped x (peer_spend s e f x scope dim lines)).
  Proof.
    unfold query. rewrite sort_desc_In. apply merge_In.
  Qed.

Lemma query_leak s e f x k scope dim lines r :
    In r (query s e f x k scope dim lines) -> cr_leak r == cr_market r - cr_inx r.
  Proof.
    intros H. destruct (query_In _ _ _ _ _ _ _ _ _ H) as [key [ms [-> Hms]]].
    simpl. apply Qsum_sub. intros m Hm.
    apply (grouped_leak x (peer_spend s e f x scope dim lines) m).
    apply Hms. exact Hm.
  Qed.

Lemma grouped_cents x ps r :
    (forall p, In p ps -> is_cents (ps_spend p)) ->
    In r (grouped x ps) ->
    is_cents (cr_inx r) /\ is_cents (cr_market r) /\ is_cents (cr_leak r).
  Proof.
    intros Hps H. destruct (grouped_In x ps r H) as [cat [ms [-> Hms]]].
    assert (Hi : is_cents (Qsum (map (in_x_spend x) ms))).
    { apply is_cents_Qsum. intros p Hp. unfold in_x_spend.
      destruct (String.eqb _ _); [apply Hps, Hms, Hp | apply is_cents_0]. }
    assert (Hm : is_cents (Qsum (map ps_spend ms))).
    { apply is_cents_Qsum. intros p Hp. apply Hps, Hms, Hp. }
    simpl. repeat split; auto using is_cents_minus.
  Qed.

Lemma query_cents s e f x k scope dim lines r :
    (forall ln, In ln lines -> is_cents (line_amount ln)) ->
    In r (query s e f x k scope dim lines) ->
    is_cents (cr_inx r) /\ is_cents (cr_market r) /\ is_cents (cr_leak r).
  Proof.
    intros Hl H. destruct (query_In _ _ _ _ _ _ _ _ _ H) as [key [ms [-> Hms]]].
    assert (Hps : forall p, In p (peer_spend s e f x scope dim lines) ->
                            is_cents (ps_spend p)).
    { intros p Hp. destruct (peer_spend_In _ _ _ _ _ _ _ _ Hp) as [ls [Hls ->]].
      apply is_cents_Qsum. intros ln Hln. apply Hl, Hls, Hln. }
    simpl. repeat split; apply is_cents_Qsum; intros m Hm;
      destruct (grouped_cents x _ m Hps (proj2 (Hms m Hm))) as [? [? ?]]; auto.
  Qed.

End CaptureFacts.


Section GroupByKeys.
Context {K A : Type} (eqb : K -> K -> bool) (key : A -> K).
Hypothesis eqb_spec : forall x y, reflect (x = y) (eqb x y).

Lemma keys_insert_group k0 (a : A) gs k :
    In k (map fst (insert_group eqb k0 a gs)) <-> k0 = k \/ In k (map fst gs).
  Proof.
    induction gs as [|[k' ms] t IH]; simpl.
    - tauto.
    - destruct (eqb_spec k' k0) as [->|Hne]; simpl; [tauto|].
      rewrite IH. tauto.
  Qed.

Lemma nodup_insert_group k0 (a : A) gs :
    NoDup (map fst gs) -> NoDup (map fst (insert_group eqb k0 a gs)).
  Proof.
    induction gs as [|[k' ms] t IH]; simpl; intros H.
    - constructor; [intros []|constructor].
    - inversion H as [|? ? Hni Hnd]; subst.
      destruct (eqb_spec k' k0) as [->|Hne]; simpl.
      + constructor; assumption.
      + constructor; [|apply IH, Hnd].
        rewrite keys_insert_group. intros [E|E]; [congruence|contradiction].
  Qed.

Lemma nodup_group_by l : NoDup (map fst (group_by eqb key l)).
  Proof.
    induction l as [|a l IH]; simpl; [constructor|].
    apply nodup_insert_group, IH.
  Qed.

Lemma assoc_In_nodup gs k (ms : list A) :
    NoDup (map fst gs) -> In (k, ms) gs -> assoc eqb k gs = Some ms.
  Proof.
    induction gs as [|[k' ms'] t IH]; simpl; [contradiction|].
    intros Hnd [E|Hin]; inversion Hnd as [|? ? Hni Hnd']; subst.
    - inversion E; subst. destruct (eqb_spec k k); congruence.
    - destruct (eqb_spec k' k) as [->|_]; [|apply IH; assumption].
      exfalso. apply Hni. apply (in_map fst _ _ Hin).
  Qed.

  (** A group holds exactly the rows of its key, in their order. *)
Lemma group_by_exact l k ms :
    In (k, ms) (group_by eqb key l) -> ms = filter (fun a => eqb (key a) k) l.
  Proof.
    intros H. pose proof (assoc_In_nodup _ _ _ (nodup_group_by l) H) as E.
    rewrite (assoc_group_by eqb key eqb_spec l k) in E.
    destruct (filter _ l); congruence.
  Qed.

  (** [SUM(COUNT( * )) OVER ()]: the group sizes add up to the row count. *)
Lemma group_sizes_insert k0 (a : A) gs :
    fold_right Nat.add 0%nat (map (fun g => List.length (snd g)) (insert_group eqb k0 a gs))
    = S (fold_right Nat.add 0%nat (map (fun g => List.length (snd g)) gs)).
  Proof.
    induction gs as [|[k' ms] t IH]; simpl; [reflexivity|].
    destruct (eqb k' k0); simpl; [reflexivity|]. rewrite IH. lia.
  Qed.

Lemma group_sizes l :
    fold_right Nat.add 0%nat (map (fun g => List.length (snd g)) (group_by eqb key l))
    = List.length l.
  Proof.
    induction l as [|a l IH]; simpl; [reflexivity|].
    rewrite group_sizes_insert, IH. reflexivity.
  Qed.
End GroupByKeys.

(** Rounding to two decimals moves a non-negative value by at most half a
    cent. *)
Lemma pg_round2_bound x :
  0 <= x -> x - (1 # 200) <= pg_round2 x /\ pg_round2 x <= x + (1 # 200).
Proof.
  intros Hx. unfold pg_round2.
  replace (Qle_bool 0 x) with true by (symmetry; apply Qle_bool_iff, Hx).
  pose proof (Qfloor_le (x * 100 + (1 # 2))) as H1.
  pose proof (Qlt_floor (x * 100 + (1 # 2))) as H2.
  rewrite inject_Z_plus in H2.
  set (F := inject_Z (Qfloor (x * 100 + (1 # 2)))) in *.
  split.
  - apply Qle_shift_div_l; [reflexivity|]. change (inject_Z 1) with 1 in H2. lra.
  - apply Qle_shift_div_r; [reflexivity|]. lra.
Qed.

Lemma pg_round2_0 : pg_round2 0 == 0.
Proof. reflexivity. Qed.

Module WaterfallFacts.
Import Waterfall.

Lemma bucket_eqb_spec a b : reflect (a = b) (bucket_eqb a b).
  Proof. destruct a, b; simpl; constructor; congruence. Qed.

Definition count (b : Bucket) (trs : list Transition) : nat :=
    List.length (filter (fun t => bucket_eqb (classify t) b) trs).

Definition step (b : Bucket) (acc : option (nat * Q)) (r : SqlRow) :=
    if bucket_eqb (sr_bucket r) b then Some (sr_users r, js_number (sr_pct r)) else acc.

Lemma fold_step_nomatch b rows acc :
    (forall r, In r rows -> bucket_eqb (sr_bucket r) b = false) ->
    fold_left (step b) rows acc = acc.
  Proof.
    revert acc. induction rows as [|r t IH]; simpl; intros acc H; [reflexivity|].
    unfold step at 2. rewrite (H r (or_introl eq_refl)). apply IH. auto.
  Qed.

Lemma fold_step_find b rows acc :
    NoDup (map sr_bucket rows) ->
    fold_left (step b) rows acc =
    match find (fun r => bucket_eqb (sr_bucket r) b) rows with
    | Some r => Some (sr_users r, js_number (sr_pct r))
    | None => acc
    end.
  Proof.
    revert acc. induction rows as [|r t IH]; simpl; intros acc Hnd; [reflexivity|].
    inversion Hnd as [|? ? Hni Hnd']; subst.
    unfold step at 2.
    destruct (bucket_eqb_spec (sr_bucket r) b) as [E|E].
    - apply fold_step_nomatch. intros r' Hr'.
      destruct (bucket_eqb_spec (sr_bucket r') b); [|reflexivity].
      exfalso. apply Hni. rewrite E, <- e. apply in_map, Hr'.
    - apply IH, Hnd'.
  Qed.

Definition row_of (total : nat) (g : Bucket * list Transition) : SqlRow :=
    let '(b, ms) := g in
    mkSqlRow b (List.length ms)
      (option_map pg_round2
         (div_nullif (100 * inject_Z (Z.of_nat (List.length ms)))
                     (inject_Z (Z.of_nat total)))).

Lemma sql_rows_eq trs :
    sql_rows trs = map (row_of (List.length trs)) (group_by bucket_eqb classify trs).
  Proof.
    unfold sql_rows. rewrite (group_sizes bucket_eqb classify).
    apply map_ext. intros [b ms]. reflexivity.
  Qed.

Lemma find_map_row total b gs :
    find (fun r => bucket_eqb (sr_bucket r) b) (map (row_of total) gs) =
    option_map (fun ms => row_of total (b, ms)) (assoc bucket_eqb b gs).
  Proof.
    induction gs as [|[b' ms] t IH]; simpl; [reflexivity|].
    destruct (bucket_eqb_spec b' b) as [->|]; [reflexivity|]. exact IH.
  Qed.

  (** The JavaScript lookup of a bucket reads its transition count. *)
Lemma bucket_map_sql_rows trs b :
    bucket_map (sql_rows trs) b =
    match filter (fun t => bucket_eqb (classify t) b) trs with
    | [] => None
    | ms => Some (List.length ms, js_number (sr_pct (row_of (List.length trs) (b, ms))))
    end.
  Proof.
    unfold bucket_map. fold (step b).
    rewrite fold_step_find.
    - rewrite sql_rows_eq, find_map_row,
        (assoc_group_by bucket_eqb classify bucket_eqb_spec).
      destruct (filter _ trs); reflexivity.
    - rewrite sql_rows_eq, map_map.
      replace (map (fun x => sr_bucket (row_of (List.length trs) x))
                 (group_by bucket_eqb classify trs))
        with (map fst (group_by bucket_eqb classify trs)).
      + apply (nodup_group_by bucket_eqb classify bucket_eqb_spec).
      + apply map_ext. intros [b' ms]. reflexivity.
  Qed.

Definition pct_of (n total : nat) : Q :=
    js_number (option_map pg_round2
      (div_nullif (100 * inject_Z (Z.of_nat n)) (inject_Z (Z.of_nat total)))).

Lemma waterfall_rows trs :
    waterfall_of_rows (sql_rows trs) =
    map (fun b => mkWRow b (count b trs)
                    (match count b trs with 0%nat => 0 | _ => pct_of (count b trs) (List.length trs) end))
        bucketOrder.
  Proof.
    unfold waterfall_of_rows. apply map_ext. intros b.
    rewrite bucket_map_sql_rows. unfold count.
    destruct (filter _ trs) eqn:E; reflexivity.
  Qed.

Lemma counts_sum trs :
    (count RETAINED trs + count CATEGORY_GONE trs + count REDUCED_BASKET trs +
     count REDUCED_FREQ trs + count DELAYED_ONLY trs + count FULL_CHURN trs)%nat
    = List.length trs.
  Proof.
    induction trs as [|t trs IH]; [reflexivity|].
    unfold count in *; simpl.
    destruct (classify t); simpl; lia.
  Qed.

End WaterfallFacts.

Module WaterfallPct.
Import Waterfall WaterfallFacts.

Lemma pct_bound n T :
    (0 < T)%nat ->
    let x := 100 * inject_Z (Z.of_nat n) / inject_Z (Z.of_nat T) in
    x - (1 # 200) <= (match n with 0%nat => 0 | _ => pct_of n T end) /\
    (match n with 0%nat => 0 | _ => pct_of n T end) <= x + (1 # 200).
  Proof.
    intros HT x.
    assert (HTq : ~ inject_Z (Z.of_nat T) == 0).
    { intros E. apply (inject_Z_injective (Z.of_nat T) 0) in E. lia. }
    assert (Hx : 0 <= x).
    { unfold x. apply Qle_shift_div_l.
      - rewrite <- (Zlt_Qlt 0%Z). lia.
      - rewrite Qmult_0_l. apply Qmult_le_0_compat; [discriminate|].
        rewrite <- (Zle_Qle 0%Z). lia. }
    destruct n as [|n'].
    - assert (E : x == 0) by (unfold x; simpl; field; exact HTq).
      rewrite E. split; discriminate.
    - unfold pct_of, div_nullif.
      replace (Qeq_bool (inject_Z (Z.of_nat T)) 0) with false.
      + simpl. apply pg_round2_bound, Hx.
      + symmetry. apply not_true_iff_false. intros E. apply HTq, Qeq_bool_iff, E.
  Qed.

Lemma pg_round2_eq_0 q : q == 0 -> pg_round2 q == 0.
  Proof.
    intros Hq. unfold pg_round2.
    replace (Qle_bool 0 q) with true by (symmetry; apply Qle_bool_iff; rewrite Hq; apply Qle_refl).
    rewrite (Qfloor_comp (q * 100 + (1 # 2)) (inject_Z 0 + (1 # 2)))
      by (rewrite Hq; reflexivity).
    rewrite Qfloor_half. reflexivity.
  Qed.

Lemma pct_of_zero T : pct_of 0 T == 0.
  Proof.
    unfold pct_of, div_nullif.
    destruct (Qeq_bool (inject_Z (Z.of_nat T)) 0); simpl; [reflexivity|].
    apply pg_round2_eq_0. unfold Qeq; simpl; reflexivity.
  Qed.

Lemma sum_pct_bound trs :
    trs <> [] ->
    100 - (3 # 100) <= sum_pct (waterfall_of_rows (sql_rows trs)) /\
    sum_pct (waterfall_of_rows (sql_rows trs)) <= 100 + (3 # 100).
  Proof.
    intros Hne. rewrite waterfall_rows. unfold sum_pct, Qsum. simpl.
    assert (HT : (0 < List.length trs)%nat) by (destruct trs; [congruence | simpl; lia]).
    pose proof (counts_sum trs) as Hsum.
    set (T := List.length trs) in *.
    assert (HTq : ~ inject_Z (Z.of_nat T) == 0).
    { intros E. apply (inject_Z_injective (Z.of_nat T) 0) in E. lia. }
    destruct (pct_bound (count RETAINED trs) T HT) as [A1 B1].
    destruct (pct_bound (count CATEGORY_GONE trs) T HT) as [A2 B2].
    destruct (pct_bound (count REDUCED_BASKET trs) T HT) as [A3 B3].
    destruct (pct_bound (count REDUCED_FREQ trs) T HT) as [A4 B4].
    destruct (pct_bound (count DELAYED_ONLY trs) T HT) as [A5 B5].
    destruct (pct_bound (count FULL_CHURN trs) T HT) as [A6 B6].
    assert (Hx : 100 * inject_Z (Z.of_nat (count RETAINED trs)) / inject_Z (Z.of_nat T) +
                 100 * inject_Z (Z.of_nat (count CATEGORY_GONE trs)) / inject_Z (Z.of_nat T) +
                 100 * inject_Z (Z.of_nat (count REDUCED_BASKET trs)) / inject_Z (Z.of_nat T) +
                 100 * inject_Z (Z.of_nat (count REDUCED_FREQ trs)) / inject_Z (Z.of_nat T) +
                 100 * inject_Z (Z.of_nat (count DELAYED_ONLY trs)) / inject_Z (Z.of_nat T) +
                 100 * inject_Z (Z.of_nat (count FULL_CHURN trs)) / inject_Z (Z.of_nat T) == 100).
    { clear - Hsum HTq. rewrite <- Hsum in HTq |- *.
      rewrite !Nat2Z.inj_add, !inject_Z_plus in *. field. exact HTq. }
    split; lra.
  Qed.

End WaterfallPct.

(** ** Claims *)

Module Claims.
Import Waterfall WaterfallFacts.

Lemma Qle_bool_mult_comm a b c :
    Qle_bool (a * b) c = Qle_bool (b * a) c.
  Proof.
    destruct (Qle_bool (a * b) c) eqn:E1, (Qle_bool (b * a) c) eqn:E2; try reflexivity.
    - apply Qle_bool_iff in E1. rewrite Qmult_comm in E1.
      apply Qle_bool_iff in E1. congruence.
    - apply Qle_bool_iff in E2. rewrite Qmult_comm in E2.
      apply Qle_bool_iff in E2. congruence.
  Qed.

  (** C2 (confirmed): the waterfall [CASE] is the six rules of the spec taken
      in the order RETAINED, CATEGORY_GONE, REDUCED_BASKET, REDUCED_FREQ,
      FULL_CHURN, DELAYED_ONLY with the first matching rule winning; and a
      transition with origin spend 100, next spend 95 and one next visit at
      the issuer is RETAINED (whatever the other counts). *)
Theorem classify_first_match :
    (forall t, classify t = first_match spec_rules t) /\
    (forall u o n vxo vtn, classify (mkTr u o n vxo 100 1 95 vtn) = RETAINED).
  Proof.
    split.
    - intros t. unfold classify, first_match, spec_rules.
      rewrite (Qle_bool_mult_comm (sx_o t) (9 # 10)),
              (Qle_bool_mult_comm (sx_o t) (1 # 2)).
      reflexivity.
    - intros. reflexivity.
  Qed.

  (** C3 (corrected): the waterfall is one list of the six buckets, pooled
      over every origin month of the window (there is no per-month row and no
      [cohort_size]); its bucket users add up to the number of transitions,
      i.e. of (user, origin month) pairs with a visit at the issuer in the
      origin month and a later month in the series; each bucket's [pct] is
      [ROUND(100 * users / total, 2)] for that total ([0] when there is no
      transition); and when there is a transition the bucket percentages add
      up to 100 within 0.03. *)
Theorem waterfall_pooled_partition s e f x v lines :
    let trs := transitions x (base_txn s e f v lines) in
    let w := waterfall s e f x v lines in
    map w_bucket w = bucketOrder /\
    sum_users w = List.length trs /\
    (forall r, In r w ->
       w_pct r == js_number (option_map pg_round2
                    (div_nullif (100 * inject_Z (Z.of_nat (w_users r)))
                                (inject_Z (Z.of_nat (List.length trs)))))) /\
    (trs <> [] -> 100 - (3 # 100) <= sum_pct w /\ sum_pct w <= 100 + (3 # 100)).
  Proof.
    intros trs w. unfold w, waterfall. fold trs.
    split; [|split; [|split]].
    - rewrite waterfall_rows. reflexivity.
    - rewrite waterfall_rows. unfold sum_users, nat_sum. simpl.
      rewrite <- (counts_sum trs). lia.
    - rewrite waterfall_rows. intros r Hr. apply in_map_iff in Hr.
      destruct Hr as [b [<- _]]. simpl.
      destruct (count b trs) as [|c]; [|reflexivity].
      symmetry. apply (WaterfallPct.pct_of_zero (List.length trs)).
    - apply WaterfallPct.sum_pct_bound.
  Qed.

Definition wf_line (u cufe : nat) (d : Z) (x : string) (amt : Q) : Line :=
    mkLine (Some u) cufe d x None (Some "FOOD") None (Some amt) None.

Lemma waterfall_pooled_partition_witness :
    transitions "X" (base_txn 20250101 20250401 None "FOOD"
      [wf_line 1 1 20250110 "X" 100; wf_line 1 2 20250210 "X" 95]) <> [] /\
    100 - (3 # 100) <= sum_pct (waterfall 20250101 20250401 None "X" "FOOD"
      [wf_line 1 1 20250110 "X" 100; wf_line 1 2 20250210 "X" 95]).
  Proof.
    split.
    - vm_compute. discriminate.
    - apply (proj2 (proj2 (proj2 (waterfall_pooled_partition 20250101 20250401 None "X" "FOOD"
        [wf_line 1 1 20250110 "X" 100; wf_line 1 2 20250210 "X" 95])))).
      vm_compute. discriminate.
  Defined.

  (** C3 counterexample: one user buying at the issuer in January, February
      and March.  Each of the origin months January and February has a
      transitioning cohort of one user, but the single waterfall counts two
      transitions. *)
Lemma waterfall_not_per_month_cex :
    let ls := [wf_line 1 1 20250110 "X" 100; wf_line 1 2 20250210 "X" 95;
               wf_line 1 3 20250310 "X" 90] in
    let trs := transitions "X" (base_txn 20250101 20250401 None "FOOD" ls) in
    let w := waterfall 20250101 20250401 None "X" "FOOD" ls in
    List.length w = 6%nat /\
    sum_users w = 2%nat /\
    cohort_size trs 20250101 = 1%nat /\ cohort_size trs 20250201 = 1%nat.
  Proof. vm_compute. repeat split. Qed.

End Claims.

Module CaptureClaims.
Import Capture CaptureFacts.

Definition cap_line (u cufe : nat) (x : string) (cat : option string) (amt : Q) : Line :=
    mkLine (Some u) cufe 20250115 x None cat None (Some amt) None.

Definition no_dim : DimIssuer := fun _ => None.

Lemma query_merged s e f x k scope dim lines r :
    In r (query s e f x k scope dim lines) ->
    r = merged_row (cr_cat r)
          (filter (fun g => String.eqb (merge_key k g) (cr_cat r))
             (grouped x (peer_spend s e f x scope dim lines))).
  Proof.
    unfold query. rewrite CaptureFacts.sort_desc_In. unfold merge.
    intros H. apply in_map_iff in H. destruct H as [[key ms] [<- Hin]].
    rewrite (group_by_exact String.eqb (merge_key k) String.eqb_spec _ _ _ Hin).
    reflexivity.
  Qed.

(** C4 (corrected): on the values the query computes, [leakage_usd] is
      [spend_market_usd - spend_in_x_usd] exactly for every category row,
      before the k-anonymity merge and after it.  Each merged row is built
      from exactly the grouped rows whose merge key is its category, each
      once, and its spend in X, market spend and leakage are their sums.  The
      response rounds the three amounts to cents separately, so there the
      identity holds when the ledger amounts are whole cents. *)
Theorem capture_leakage_identity s e f x k scope dim lines :
    (forall r, In r (grouped x (peer_spend s e f x scope dim lines)) ->
       cr_leak r == cr_market r - cr_inx r) /\
    (forall r, In r (query s e f x k scope dim lines) ->
       cr_leak r == cr_market r - cr_inx r /\
       let ms := filter (fun g => String.eqb (merge_key k g) (cr_cat r))
                   (grouped x (peer_spend s e f x scope dim lines)) in
       cr_inx r = Qsum (map cr_inx ms) /\ cr_market r = Qsum (map cr_market ms) /\
       cr_leak r = Qsum (map cr_leak ms)) /\
    ((forall ln, In ln lines -> is_cents (line_amount ln)) ->
     forall o, In o (capture s e f x k scope dim lines) ->
       o_leak o == o_market o - o_inx o).
  Proof.
    split; [|split].
    - apply grouped_leak.
    - intros r Hr. split; [apply (query_leak _ _ _ _ _ _ _ _ _ Hr)|].
      pose proof (query_merged _ _ _ _ _ _ _ _ _ Hr) as E. cbv zeta.
      split; [|split]; rewrite E at 1; reflexivity.
    - intros Hc o Ho. unfold capture in Ho. apply in_map_iff in Ho.
      destruct Ho as [r [<- Hr]].
      destruct (query_cents _ _ _ _ _ _ _ _ _ Hc Hr) as [Hi [Hm Hl]].
      simpl. rewrite !js_round_cents_id by assumption.
      apply (query_leak _ _ _ _ _ _ _ _ _ Hr).
  Qed.

Definition cents_lines : list Line :=
    [cap_line 1 1 "X" (Some "FOOD") (21 # 2); cap_line 1 2 "Y" (Some "FOOD") (13 # 4)].

Lemma capture_leakage_identity_witness :
    exists o, In o (capture 20250101 20250401 None "X" 1 All no_dim cents_lines) /\
      o_leak o == o_market o - o_inx o.
  Proof.
    eexists. split; [vm_compute; left; reflexivity|].
    apply (proj2 (proj2 (capture_leakage_identity 20250101 20250401 None "X" 1 All
                           no_dim cents_lines))).
    - intros ln [<-|[<-|[]]]; simpl; [exists 1050%Z | exists 325%Z]; reflexivity.
    - vm_compute. left. reflexivity.
  Defined.

  (** C4 counterexample: amounts of a tenth of a cent.  The category row has
      spend at the issuer 0.004 and market 0.007; the response reports
      [spend_in_x_usd = 0], [spend_market_usd = 0.01] and [leakage_usd = 0]. *)
Lemma capture_leakage_rounding_cex :
    let out := capture 20250101 20250401 None "X" 1 All no_dim
                 [cap_line 1 1 "X" (Some "FOOD") (4 # 1000);
                  cap_line 1 2 "Y" (Some "FOOD") (3 # 1000)] in
    List.length out = 1%nat /\
    forall o, In o out -> ~ (o_leak o == o_market o - o_inx o).
  Proof.
    vm_compute. split; [reflexivity|].
    intros o [<-|[]]. unfold Qeq. simpl. discriminate.
  Qed.

  (** C5 (confirmed): a capture row whose market spend is 0 reports
      [sow_pct = 0] (the [NULLIF] makes the quotient [NULL] and [Number(null)]
      is 0); the KPI summary's [sow_pct] is 0 when the market spend is 0 or
      absent.  Both are rationals, so never NaN or infinite. *)
Theorem capture_sow_zero_market s e f x k scope dim lines :
    (forall r, In r (query s e f x k scope dim lines) ->
       cr_market r == 0 -> o_sow (out_row r) = 0) /\
    (forall ventas m, m == 0 -> Kpis.sow_out ventas (Some m) = 0) /\
    (forall ventas, Kpis.sow_out ventas None = 0).
  Proof.
    split; [|split].
    - intros r Hr H0. destruct (query_In _ _ _ _ _ _ _ _ _ Hr) as [key [ms [-> _]]].
      unfold out_row, merged_row, div_nullif. simpl in *.
      replace (Qeq_bool (Qsum (map cr_market ms)) 0) with true
        by (symmetry; apply Qeq_bool_iff, H0).
      reflexivity.
    - intros ventas m Hm. unfold Kpis.sow_out, Kpis.sow_sql.
      replace (Qle_bool m 0) with true
        by (symmetry; apply Qle_bool_iff; rewrite Hm; discriminate).
      reflexivity.
    - reflexivity.
  Qed.

Lemma capture_sow_zero_market_witness :
    exists r, In r (query 20250101 20250401 None "X" 1 All no_dim
                     [cap_line 1 1 "X" (Some "FOOD") 0]) /\
      cr_market r == 0 /\ o_sow (out_row r) = 0.
  Proof.
    eexists. split; [vm_compute; left; reflexivity|]. split; [reflexivity|].
    apply (proj1 (capture_sow_zero_market 20250101 20250401 None "X" 1 All no_dim
                    [cap_line 1 1 "X" (Some "FOOD") 0])).
    - vm_compute. left. reflexivity.
    - reflexivity.
  Defined.

  (** C1 (code bug): capture merges an [UNKNOWN] category with fewer than k
      users into [OTHER_SUPPRESSED], so [UNKNOWN] does not appear; the
      loyalty merge, on the same support, keeps [UNKNOWN] standalone and
      tagged [SUPPRESSED]. *)
Theorem capture_merges_unknown :
    map o_cat (capture 20250101 20250401 None "X" 5 All no_dim
                 [cap_line 1 1 "X" None 10]) = ["OTHER_SUPPRESSED"] /\
    map o_is_unknown (capture 20250101 20250401 None "X" 5 All no_dim
                        [cap_line 1 1 "X" None 10]) = [false] /\
    map (fun o => (Loyalty.o_brand o, Loyalty.o_trust o))
      (Loyalty.loyalty_data 5 [Loyalty.mkBA "UNKNOWN" 1 None None 0]) =
      [("UNKNOWN", Some "SUPPRESSED")].
  Proof. vm_compute. repeat split. Qed.

  (** C9 (code bug): [normDim] maps a blank value to [UNKNOWN], but the
      capture query only replaces [NULL] ([COALESCE(col, 'UNKNOWN')]): a
      line with an empty category is grouped under [''], not [UNKNOWN], and
      is not flagged [is_unknown]. *)
Theorem capture_blank_not_unknown :
    normDim (Some "") = "UNKNOWN" /\ normDim (Some "  ") = "UNKNOWN" /\
    map (fun o => (o_cat o, o_is_unknown o))
      (capture 20250101 20250401 None "X" 1 All no_dim [cap_line 1 1 "X" (Some "") 10])
    = [("", false)].
  Proof. vm_compute. repeat split. Qed.

End CaptureClaims.

Module OtherClaims.

Lemma insert_group_nonempty {K A} (eqb : K -> K -> bool) k (a : A) gs :
    insert_group eqb k a gs <> [].
  Proof. destruct gs as [|[k' ms] t]; simpl; [|destruct (eqb k' k)]; discriminate. Qed.

  (** C6 (corrected): neither loyalty response withholds its rows on a
      [SUPPRESSED] verdict.  The deck's loyalty section sets [trust_level]
      from the first row's [eligible_users] alone ([SUPPRESSED] exactly below
      10, no coverage test) and returns every per-brand row whatever the
      verdict.  The v2.2 loyalty endpoint computes no window verdict: it
      returns one [data] row per [brand_final] row, at least one whenever a
      brand is present, and [trust_level] is [SUPPRESSED] on exactly the
      [UNKNOWN] rows. *)
Theorem deck_loyalty_rows_kept c r rs :
    let sec := DeckLoyalty.loyalty_section (Some c) (r :: rs) in
    DeckLoyalty.dl_trust sec = Some (DeckLoyalty.trust_of (DeckLoyalty.q_eligible r)) /\
    List.length (DeckLoyalty.dl_data sec) = S (List.length rs) /\
    (DeckLoyalty.trust_of (DeckLoyalty.q_eligible r) = "SUPPRESSED" <->
     (DeckLoyalty.q_eligible r < 10)%nat) /\
    (forall k aggs,
       List.length (Loyalty.loyalty_data k aggs) = List.length (Loyalty.brand_final k aggs) /\
       (aggs <> [] -> Loyalty.loyalty_data k aggs <> []) /\
       (forall o, In o (Loyalty.loyalty_data k aggs) ->
          Loyalty.o_trust o = Some "SUPPRESSED" <-> Loyalty.o_brand o = "UNKNOWN")).
  Proof.
    simpl. split; [reflexivity|]. split; [rewrite length_map; reflexivity|].
    split.
    - unfold DeckLoyalty.trust_of.
      destruct (Nat.ltb_spec (DeckLoyalty.q_eligible r) 10); [tauto|].
      split; [|lia].
      destruct (Nat.ltb _ 30); [discriminate|].
      destruct (Nat.ltb _ 100); discriminate.
    - intros k aggs. unfold Loyalty.loyalty_data. split; [apply length_map|]. split.
      + destruct aggs as [|a t]; [congruence|]. intros _.
        unfold Loyalty.brand_final. simpl.
        destruct (insert_group String.eqb (Loyalty.merge_key k a) a
                    (group_by String.eqb (Loyalty.merge_key k) t)) eqn:E;
          [exfalso; exact (insert_group_nonempty _ _ _ _ E) | discriminate].
      + intros o Ho. apply in_map_iff in Ho. destruct Ho as [b [<- _]]. simpl.
        destruct (String.eqb_spec (Loyalty.br_brand b) "UNKNOWN"); split; congruence.
  Qed.

  (** C6 counterexample: three eligible users who all buy brand ACME, with
      k = 2: the section is [SUPPRESSED] and still lists ACME. *)
Lemma deck_loyalty_suppressed_cex :
    let sec := DeckLoyalty.loyalty_section (Some "FOOD")
                 (DeckLoyalty.query 2 3 [DeckLoyalty.mkBA "ACME" 3]) in
    DeckLoyalty.dl_trust sec = Some "SUPPRESSED" /\
    map DeckLoyalty.d_brand (DeckLoyalty.dl_data sec) = ["ACME"].
  Proof. vm_compute. split; reflexivity. Qed.

Definition sw_line (u cufe : nat) (x : string) (rec : recon) : Line :=
    mkLine (Some u) cufe 20250115 x None (Some "FOOD") None (Some 10) rec.

  (** C7 (code bug): in the v2.1 handler a destination reached by fewer than
      k cohort members is dropped by [HAVING], not merged into
      [OTHER_SUPPRESSED]: one cohort member at destination Y with k = 5
      gives no row at all. *)
Theorem switching_drops_low_support :
    Switching.switching 20250101 20250401 None "X" 5
      [sw_line 1 1 "X" None; sw_line 1 2 "Y" None] = [] /\
    map Switching.o_dest (Switching.switching 20250101 20250401 None "X" 1
      [sw_line 1 1 "X" None; sw_line 1 2 "Y" None]) = ["Y"].
  Proof. vm_compute. split; reflexivity. Qed.

Lemma in_window_empty s e ln : (e <= s)%Z -> in_window s e ln = false.
  Proof.
    intros H. unfold in_window.
    destruct (Z.leb_spec s (l_date ln)); simpl; [|reflexivity].
    apply Z.ltb_ge. lia.
  Qed.

Lemma filter_none {T} (p : T -> bool) l :
    (forall a, p a = false) -> filter p l = [].
  Proof.
    intros H. induction l as [|a l IH]; simpl; [reflexivity|]. rewrite H. exact IH.
  Qed.

  (** C8 (corrected): an empty window is not rejected.  With both dates
      present and [end <= start], the capture handler answers with an empty
      [data] array; only a missing or unparseable date is a bad request. *)
Theorem empty_window_accepted f k lines s e x cv :
    (e <= s)%Z ->
    Filters.capture_handler f k lines (Filters.mkReq (Some s) (Some e) (Some x) cv)
    = Filters.Ok [] /\
    Filters.capture_handler f k lines (Filters.mkReq None (Some e) (Some x) cv)
    = Filters.BadRequest ["start"].
  Proof.
    intros H. split; [|reflexivity].
    unfold Filters.capture_handler. simpl. f_equal.
    unfold Capture.capture, Capture.query, Capture.peer_spend.
    rewrite filter_none; [reflexivity|].
    intros ln. rewrite (in_window_empty s e ln H).
    rewrite !andb_false_r. simpl. reflexivity.
  Qed.

Lemma empty_window_accepted_witness :
    (20250101 <= 20250101)%Z /\
    Filters.capture_handler None 5 [sw_line 1 1 "X" None]
      (Filters.mkReq (Some 20250101%Z) (Some 20250101%Z) (Some "X") None) = Filters.Ok [].
  Proof.
    split; [lia|].
    apply (proj1 (empty_window_accepted None 5 [sw_line 1 1 "X" None]
                    20250101%Z 20250101%Z "X" None ltac:(lia))).
  Defined.

  (** C8 counterexample: [start = end] is answered, not refused. *)
Lemma empty_window_not_error_cex :
    Filters.capture_handler None 5 [sw_line 1 1 "X" None]
      (Filters.mkReq (Some 20250301%Z) (Some 20250101%Z) (Some "X") None) = Filters.Ok [].
  Proof. vm_compute. reflexivity. Qed.

  (** C10 (code bug): with [reconcile_ok = true], a line without a
      reconciliation record is not excluded everywhere.  The switching
      cohort query has no reconciliation join and no reconciliation
      condition: a user whose only line at the issuer is unreconciled is
      outside the capture cohort but inside the switching cohort, and the
      switching response lists that user's reconciled destination Y.  Its
      own [elsewhere] step applies the filter: an unreconciled line at Y
      gives no destination. *)
Theorem switching_cohort_ignores_reconcile :
    let ls := [sw_line 1 1 "X" None; sw_line 1 2 "Y" (Some (Some true))] in
    recon_pass (Some true) (sw_line 1 1 "X" None) = false /\
    Capture.cohort 20250101 20250401 (Some true) "X" ls = [] /\
    Switching.cohort 20250101 20250401 "X" ls = [1%nat] /\
    map (fun o => (Switching.o_dest o, Switching.o_users o))
      (Switching.switching 20250101 20250401 (Some true) "X" 1 ls) = [("Y", 1%nat)] /\
    Switching.switching 20250101 20250401 (Some true) "X" 1
      [sw_line 1 1 "X" (Some (Some true)); sw_line 1 2 "Y" None] = [].
  Proof. vm_compute. repeat split. Qed.

End OtherClaims.

(** * Further properties of the code *)

Section GroupBySums.
Context {K A : Type} (eqb : K -> K -> bool) (key : A -> K).

Lemma Qsum_insert_group (f : A -> Q) k0 a gs :
    Qsum (map (fun g => Qsum (map f (snd g))) (insert_group eqb k0 a gs)) ==
    f a + Qsum (map (fun g => Qsum (map f (snd g))) gs).
  Proof.
    induction gs as [|[k' ms] t IH]; simpl; [unfold Qsum; simpl; ring|].
    destruct (eqb k' k0); simpl; unfold Qsum in *; simpl in *; [ring|].
    rewrite IH. ring.
  Qed.

Lemma Qsum_group_by (f : A -> Q) l :
    Qsum (map (fun g => Qsum (map f (snd g))) (group_by eqb key l)) == Qsum (map f l).
  Proof.
    induction l as [|a l IH]; simpl; [reflexivity|].
    rewrite Qsum_insert_group, IH. unfold Qsum; simpl. reflexivity.
  Qed.

Lemma nat_sum_insert_group (f : A -> nat) k0 a gs :
    fold_right Nat.add 0%nat (map (fun g => fold_right Nat.add 0%nat (map f (snd g)))
                                  (insert_group eqb k0 a gs)) =
    (f a + fold_right Nat.add 0%nat (map (fun g => fold_right Nat.add 0%nat (map f (snd g))) gs))%nat.
  Proof.
    induction gs as [|[k' ms] t IH]; simpl; [lia|].
    destruct (eqb k' k0); simpl; [lia|]. rewrite IH. lia.
  Qed.

Lemma nat_sum_group_by (f : A -> nat) l :
    fold_right Nat.add 0%nat (map (fun g => fold_right Nat.add 0%nat (map f (snd g)))
                                  (group_by eqb key l)) =
    fold_right Nat.add 0%nat (map f l).
  Proof.
    induction l as [|a l IH]; simpl; [reflexivity|].
    rewrite nat_sum_insert_group, IH. reflexivity.
  Qed.
End GroupBySums.

Lemma Qsum_perm (l l' : list Q) : Permutation l l' -> Qsum l == Qsum l'.
Proof.
  induction 1; unfold Qsum in *; simpl in *; try reflexivity.
  - rewrite IHPermutation. reflexivity.
  - ring.
  - rewrite IHPermutation1. exact IHPermutation2.
Qed.

Lemma Qsum_filter_if {T} (p : T -> bool) (f : T -> Q) l :
  Qsum (map (fun a => if p a then f a else 0) l) == Qsum (map f (filter p l)).
Proof.
  induction l as [|a l IH]; simpl; [reflexivity|].
  unfold Qsum in *; simpl. destruct (p a); simpl; rewrite IH; ring.
Qed.

Lemma Qsum_le {T} (f g : T -> Q) l :
  (forall a, In a l -> f a <= g a) -> Qsum (map f l) <= Qsum (map g l).
Proof.
  induction l as [|a l IH]; intros H; unfold Qsum in *; simpl.
  - lra.
  - pose proof (H a (or_introl eq_refl)). pose proof (IH (fun b Hb => H b (or_intror Hb))). lra.
Qed.

Lemma Qsum_nonneg {T} (f : T -> Q) l :
  (forall a, In a l -> 0 <= f a) -> 0 <= Qsum (map f l).
Proof.
  intros H. apply (Qsum_le (fun _ => 0) f l) in H.
  assert (E : Qsum (map (fun _ : T => 0) l) == 0).
  { clear H. induction l as [|a l IH]; unfold Qsum in *; simpl.
    - reflexivity.
    - rewrite IH. ring. }
  lra.
Qed.

(** Insertion sort on a boolean order. *)
Section Insertion.
Context {T : Type} (R : T -> T -> bool).
Hypothesis R_total : forall a b, R a b = false -> R b a = true.

Fixpoint ins (r : T) (l : list T) : list T :=
  match l with [] => [r] | y :: t => if R r y then r :: l else y :: ins r t end.

Lemma ins_perm r l : Permutation (ins r l) (r :: l).
Proof.
  induction l as [|y t IH]; simpl; [auto|].
  destruct (R r y); [auto|].
  eapply perm_trans; [apply perm_skip, IH | apply perm_swap].
Qed.

Lemma ins_sorted r l :
  Sorted (fun a b => R a b = true) l -> Sorted (fun a b => R a b = true) (ins r l).
Proof.
  induction 1 as [|y t Hs IH Hd]; simpl; [auto|].
  destruct (R r y) eqn:E; [constructor; auto|].
  constructor; [exact IH|].
  destruct t as [|z t']; simpl; [constructor; apply R_total, E|].
  inversion Hd; subst. destruct (R r z); constructor; [apply R_total, E | assumption].
Qed.
End Insertion.

Lemma Sorted_firstn {T} (R : T -> T -> Prop) n l : Sorted R l -> Sorted R (firstn n l).
Proof.
  revert l; induction n as [|n IH]; intros l H; simpl; [constructor|].
  destruct l as [|a l]; [constructor|].
  inversion H as [|? ? Hs Hd]; subst. constructor; [apply IH, Hs|].
  destruct n, l as [|b l]; simpl; try constructor. inversion Hd; assumption.
Qed.

Lemma Sorted_map {T U} (R : U -> U -> Prop) (f : T -> U) l :
  Sorted (fun a b => R (f a) (f b)) l -> Sorted R (map f l).
Proof.
  induction 1 as [|a l Hs IH Hd]; simpl; constructor; [exact IH|].
  destruct Hd; simpl; constructor; assumption.
Qed.

(** Rounding keeps a percentage in [0, 100]. *)
Lemma pg_round2_range x : 0 <= x <= 100 -> 0 <= pg_round2 x <= 100.
Proof.
  intros [H0 H1]. unfold pg_round2.
  replace (Qle_bool 0 x) with true by (symmetry; apply Qle_bool_iff, H0).
  assert (Hlo : (0 <= Qfloor (x * 100 + (1 # 2)))%Z).
  { change 0%Z with (Qfloor 0). apply Qfloor_resp_le. lra. }
  assert (Hhi : (Qfloor (x * 100 + (1 # 2)) <= 10000)%Z).
  { rewrite <- (Qfloor_half 10000). apply Qfloor_resp_le. change (inject_Z 10000) with 10000. lra. }
  rewrite Zle_Qle in Hlo, Hhi.
  change (inject_Z 0) with 0 in Hlo. change (inject_Z 10000) with 10000 in Hhi.
  split.
  - apply Qle_shift_div_l; [reflexivity|]. lra.
  - apply Qle_shift_div_r; [reflexivity|]. lra.
Qed.

Lemma js_round_cents_mono a b : a <= b -> js_round_cents a <= js_round_cents b.
Proof.
  intros H. unfold js_round_cents.
  apply Qmult_le_compat_r; [|discriminate].
  rewrite <- Zle_Qle. apply Qfloor_resp_le. lra.
Qed.

Lemma js_round_cents_nonneg a : 0 <= a -> 0 <= js_round_cents a.
Proof.
  intros H. apply (js_round_cents_mono 0 a) in H.
  assert (E : js_round_cents 0 == 0) by reflexivity. lra.
Qed.

Lemma Sorted_weaken {T} (R R' : T -> T -> Prop) l :
  (forall a b, R a b -> R' a b) -> Sorted R l -> Sorted R' l.
Proof.
  intros H. induction 1 as [|a l Hs IH Hd]; constructor; [exact IH|].
  destruct Hd; constructor; auto.
Qed.

Lemma Qsum_ext_in {T} (f g : T -> Q) l :
  (forall a, In a l -> f a == g a) -> Qsum (map f l) == Qsum (map g l).
Proof.
  induction l as [|a l IH]; intros H; unfold Qsum in *; simpl.
  - reflexivity.
  - apply Qplus_comp; [apply H; left; reflexivity | apply IH; intros b Hb; apply H; right; exact Hb].
Qed.

Lemma filter_filter' {T} (p q : T -> bool) l :
  filter p (filter q l) = filter (fun a => q a && p a) l.
Proof.
  induction l as [|a l IH]; simpl; [reflexivity|].
  destruct (q a); simpl; [destruct (p a)|]; rewrite ?IH; reflexivity.
Qed.

Lemma in_nat_sum {T} (f : T -> nat) a l :
  In a l -> (f a <= fold_right Nat.add 0%nat (map f l))%nat.
Proof.
  induction l as [|b l IH]; simpl; [contradiction|]. intros [->|H]; [lia|].
  specialize (IH H). lia.
Qed.

Lemma Qsum_zero {T} (l : list T) : Qsum (map (fun _ => 0) l) == 0.
Proof.
  induction l as [|a l IH]; unfold Qsum in *; simpl.
  - reflexivity.
  - rewrite IH. reflexivity.
Qed.

Module CaptureShape.
Import Capture.

Definition R_inx (r y : CatRow) : bool := Qle_bool (cr_inx y) (cr_inx r).

Lemma R_inx_total a b : R_inx a b = false -> R_inx b a = true.
  Proof.
    unfold R_inx. intros H. apply Qle_bool_iff.
    destruct (Qlt_le_dec (cr_inx a) (cr_inx b)) as [E|E]; [lra|].
    apply Qle_bool_iff in E. congruence.
  Qed.

Lemma insert_desc_ins r l : insert_desc r l = ins R_inx r l.
  Proof. induction l as [|y t IH]; simpl; [reflexivity|]. rewrite IH. reflexivity. Qed.

Lemma sort_desc_perm l : Permutation (sort_desc l) l.
  Proof.
    induction l as [|r t IH]; simpl; [auto|]. rewrite insert_desc_ins.
    eapply perm_trans; [apply ins_perm | apply perm_skip, IH].
  Qed.

Lemma sort_desc_sorted l : Sorted (fun a b => cr_inx b <= cr_inx a) (sort_desc l).
  Proof.
    apply (Sorted_weaken (fun a b => R_inx a b = true)).
    - intros a b H. apply Qle_bool_iff, H.
    - induction l as [|r t IH]; simpl; [constructor|]. rewrite insert_desc_ins.
      apply ins_sorted; [apply R_inx_total | exact IH].
  Qed.

Lemma merge_field_sum (g : CatRow -> Q) k rs :
    (forall key ms, g (merged_row key ms) = Qsum (map g ms)) ->
    Qsum (map g (merge k rs)) == Qsum (map g rs).
  Proof.
    intros Hg. unfold merge. rewrite map_map.
    rewrite (map_ext _ (fun gr => Qsum (map g (snd gr)))) by (intros [key ms]; apply Hg).
    apply Qsum_group_by.
  Qed.

Lemma query_field_sum (g : CatRow -> Q) s e f x k scope dim lines :
    (forall key ms, g (merged_row key ms) = Qsum (map g ms)) ->
    Qsum (map g (query s e f x k scope dim lines)) ==
    Qsum (map g (grouped x (peer_spend s e f x scope dim lines))).
  Proof.
    intros Hg. unfold query.
    rewrite (Qsum_perm _ _ (Permutation_map g (sort_desc_perm _))).
    apply merge_field_sum, Hg.
  Qed.

Lemma grouped_inx_sum x ps : Qsum (map cr_inx (grouped x ps)) == Qsum (map (in_x_spend x) ps).
  Proof.
    unfold grouped. rewrite map_map.
    rewrite (map_ext _ (fun gr => Qsum (map (in_x_spend x) (snd gr)))) by (intros [c ms]; reflexivity).
    apply Qsum_group_by.
  Qed.

Lemma grouped_market_sum x ps : Qsum (map cr_market (grouped x ps)) == Qsum (map ps_spend ps).
  Proof.
    unfold grouped. rewrite map_map.
    rewrite (map_ext _ (fun gr => Qsum (map ps_spend (snd gr)))) by (intros [c ms]; reflexivity).
    apply Qsum_group_by.
  Qed.

Definition sel (s e : Z) (f : option bool) (x : string) (scope : PeerScope) (dim : DimIssuer)
    (lines : list Line) : list Line :=
  filter (fun ln => has_user ln &&
             (if in_dec Nat.eq_dec (user_of ln) (cohort s e f x lines) then true else false) &&
             in_window s e ln && recon_pass f ln && peer_where scope dim x ln) lines.

Lemma peer_spend_eq s e f x scope dim lines :
    peer_spend s e f x scope dim lines =
    map (fun '(k, ms) => let '(u, cat, iss) := k in mkPS u cat iss (Qsum (map line_amount ms)))
        (group_by ps_key_eqb line_key (sel s e f x scope dim lines)).
  Proof. reflexivity. Qed.

Lemma peer_spend_market s e f x scope dim lines :
    Qsum (map ps_spend (peer_spend s e f x scope dim lines)) ==
    Qsum (map line_amount (sel s e f x scope dim lines)).
  Proof.
    rewrite peer_spend_eq, map_map.
    rewrite (map_ext _ (fun gr => Qsum (map line_amount (snd gr)))) by (intros [[[u c] i] ms]; reflexivity).
    apply Qsum_group_by.
  Qed.

Lemma peer_spend_inx s e f x scope dim lines :
    Qsum (map (in_x_spend x) (peer_spend s e f x scope dim lines)) ==
    Qsum (map line_amount (filter (fun ln => String.eqb (l_issuer ln) x)
                                   (sel s e f x scope dim lines))).
  Proof.
    rewrite <- Qsum_filter_if.
    rewrite peer_spend_eq, map_map.
    rewrite <- (Qsum_group_by ps_key_eqb line_key
                  (fun ln => if String.eqb (l_issuer ln) x then line_amount ln else 0)).
    apply Qsum_ext_in. intros [[[u c] i] ms] Hin. simpl. unfold in_x_spend. simpl.
    destruct (group_by_members ps_key_eqb line_key ps_key_eqb_spec _ _ _ Hin) as [_ Hm].
    assert (Hi : forall m, In m ms -> l_issuer m = i).
    { intros m H. destruct (Hm m H) as [Hk _]. unfold line_key in Hk. congruence. }
    destruct (String.eqb_spec i x) as [->|Hne].
    - apply Qsum_ext_in. intros m H. rewrite (Hi m H), String.eqb_refl. reflexivity.
    - rewrite (Qsum_ext_in _ (fun _ => 0)), Qsum_zero; [reflexivity|].
      intros m H. rewrite (Hi m H). destruct (String.eqb_spec i x); [contradiction | reflexivity].
  Qed.

Lemma sel_issuer s e f x scope dim lines :
    filter (fun ln => String.eqb (l_issuer ln) x) (sel s e f x scope dim lines) =
    filter (fun ln => in_window s e ln && recon_pass f ln && String.eqb (l_issuer ln) x &&
                      has_user ln) lines.
  Proof.
    unfold sel. rewrite filter_filter'. apply filter_ext_in. intros ln Hln.
    destruct (String.eqb_spec (l_issuer ln) x) as [Hx|Hx];
      rewrite ?andb_true_r, ?andb_false_r; [|reflexivity].
    destruct (in_window s e ln) eqn:Ew, (recon_pass f ln) eqn:Er, (has_user ln) eqn:Eh;
      simpl; rewrite ?andb_false_r; try reflexivity.
    destruct (in_dec Nat.eq_dec (user_of ln) (cohort s e f x lines)) as [_|Hn].
    - unfold peer_where. destruct scope; try reflexivity. rewrite Hx, String.eqb_refl. reflexivity.
    - exfalso. apply Hn. unfold cohort. apply nodup_In, in_map, filter_In.
      split; [exact Hln|]. rewrite Ew, Er, Eh, Hx, String.eqb_refl. reflexivity.
  Qed.

Lemma merged_nonempty k rs r :
    In r (merge k rs) ->
    exists key ms, r = merged_row key ms /\ ms <> [] /\
      forall m, In m ms -> merge_key k m = key /\ In m rs.
  Proof.
    unfold merge. intros H. apply in_map_iff in H.
    destruct H as [[key ms] [Hr Hin]].
    destruct (group_by_members String.eqb (merge_key k) String.eqb_spec rs key ms Hin) as [Hne Hm].
    exists key, ms. auto.
  Qed.

Lemma sow_range inx mk :
    0 <= inx <= mk ->
    0 <= js_number (option_map pg_round2 (div_nullif (100 * inx) mk)) <= 100.
  Proof.
    intros [H0 H1]. unfold div_nullif.
    destruct (Qeq_bool mk 0) eqn:E; simpl; [lra|].
    assert (Hmk : 0 < mk).
    { destruct (Qlt_le_dec 0 mk) as [|Hle]; [assumption|].
      assert (mk == 0) by lra. apply Qeq_bool_iff in H. congruence. }
    apply pg_round2_range. split.
    - apply Qle_shift_div_l; [exact Hmk|]. lra.
    - apply Qle_shift_div_r; [exact Hmk|]. lra.
  Qed.
End CaptureShape.

Module CaptureExtra.
Import Capture CaptureShape.

(** X13: in the capture query the rows' [spend_in_x] sum to the qualifying spend at the issuer, and their [spend_market] sum to the cohort's qualifying spend in the peer scope: merging and suppression lose nothing. *)
Theorem capture_spend_totals s e f x k scope dim lines :
  Qsum (map cr_inx (query s e f x k scope dim lines)) ==
    Qsum (map line_amount
      (filter (fun ln => in_window s e ln && recon_pass f ln &&
                         String.eqb (l_issuer ln) x && has_user ln) lines)) /\
  Qsum (map cr_market (query s e f x k scope dim lines)) ==
    Qsum (map line_amount
      (filter (fun ln => has_user ln &&
                 (if in_dec Nat.eq_dec (user_of ln) (cohort s e f x lines) then true else false) &&
                 in_window s e ln && recon_pass f ln && peer_where scope dim x ln) lines)).
Proof.
  split.
  - rewrite (query_field_sum cr_inx) by reflexivity.
    rewrite grouped_inx_sum, peer_spend_inx, sel_issuer. reflexivity.
  - rewrite (query_field_sum cr_market) by reflexivity.
    rewrite grouped_market_sum, peer_spend_market. reflexivity.
Qed.

(** X14: the capture rows have distinct categories, are sorted by [spend_in_x] descending, and every row other than [OTHER_SUPPRESSED] has at least k users. *)
Theorem capture_rows_shape s e f x k scope dim lines :
  let rows := query s e f x k scope dim lines in
  NoDup (map cr_cat rows) /\
  Sorted (fun a b => cr_inx b <= cr_inx a) rows /\
  (forall r, In r rows -> cr_cat r <> "OTHER_SUPPRESSED" -> (k <= cr_users r)%nat).
Proof.
  cbv zeta. unfold query.
  set (G := grouped x (peer_spend s e f x scope dim lines)).
  split; [|split].
  - eapply Permutation_NoDup; [apply Permutation_map; symmetry; apply sort_desc_perm|].
    unfold merge. rewrite map_map.
    rewrite (map_ext _ fst) by (intros [key ms]; reflexivity).
    apply (nodup_group_by String.eqb (merge_key k) String.eqb_spec).
  - apply sort_desc_sorted.
  - intros r Hr Hc. rewrite CaptureFacts.sort_desc_In in Hr.
    destruct (merged_nonempty k G r Hr) as [key [ms [-> [Hne Hm]]]].
    simpl in Hc |- *. destruct ms as [|m0 ms']; [congruence|].
    destruct (Hm m0 (or_introl eq_refl)) as [Hk _].
    unfold merge_key in Hk. destruct (Nat.ltb_spec (cr_users m0) k); [congruence|].
    pose proof (in_nat_sum cr_users m0 (m0 :: ms') (or_introl eq_refl)). lia.
Qed.

(** X15: on non-negative line amounts, every capture row has 0 <= spend_in_x <= spend_market, a non-negative leakage and a share of wallet in [0, 100]. *)
Theorem capture_nonneg_bounds s e f x k scope dim lines :
  (forall ln, In ln lines -> 0 <= line_amount ln) ->
  forall o, In o (capture s e f x k scope dim lines) ->
    0 <= o_inx o <= o_market o /\ 0 <= o_leak o /\ 0 <= o_sow o <= 100.
Proof.
  intros Hl o Ho. unfold capture in Ho. apply in_map_iff in Ho.
  destruct Ho as [r [<- Hr]].
  set (P := peer_spend s e f x scope dim lines) in *.
  assert (HP : forall p, In p P -> 0 <= ps_spend p).
  { intros p Hp. destruct (CaptureFacts.peer_spend_In _ _ _ _ _ _ _ _ Hp) as [ms [Hms ->]].
    apply Qsum_nonneg. intros ln Hln. apply Hl, Hms, Hln. }
  assert (HG : forall g, In g (grouped x P) -> 0 <= cr_inx g <= cr_market g).
  { intros g Hg. destruct (CaptureFacts.grouped_In x P g Hg) as [cat [ms [-> Hms]]].
    simpl. split.
    - apply Qsum_nonneg. intros p Hp. unfold in_x_spend.
      destruct (String.eqb _ _); [apply HP, Hms, Hp | lra].
    - apply Qsum_le. intros p Hp. unfold in_x_spend.
      pose proof (HP p (proj2 (Hms p Hp))). destruct (String.eqb _ _); lra. }
  assert (HR : 0 <= cr_inx r <= cr_market r).
  { pose proof Hr as Hr'. unfold query in Hr'. rewrite CaptureFacts.sort_desc_In in Hr'.
    destruct (merged_nonempty k _ r Hr') as [key [ms [-> [_ Hm]]]]. simpl. split.
    - apply Qsum_nonneg. intros g Hg. apply (HG g (proj2 (Hm g Hg))).
    - apply Qsum_le. intros g Hg. apply (HG g (proj2 (Hm g Hg))). }
  pose proof (CaptureFacts.query_leak _ _ _ _ _ _ _ _ r Hr) as Hleak.
  unfold out_row; simpl. split; [|split].
  - split; [apply js_round_cents_nonneg; lra | apply js_round_cents_mono; lra].
  - apply js_round_cents_nonneg. lra.
  - pose proof Hr as Hr'. unfold query in Hr'. rewrite CaptureFacts.sort_desc_In in Hr'.
    destruct (merged_nonempty k _ r Hr') as [key [ms [Er _]]].
    rewrite Er in HR |- *. simpl in HR |- *. apply sow_range, HR.
Qed.

Lemma capture_nonneg_bounds_witness :
  exists o, In o (capture 20250101 20250401 None "X" 1 All (fun _ => None)
                   [mkLine (Some 1%nat) 1 20250110 "X" None (Some "FOOD") None (Some 40) None;
                    mkLine (Some 1%nat) 2 20250111 "Y" None (Some "FOOD") None (Some 60) None]) /\
    0 <= o_inx o <= o_market o /\ 0 <= o_leak o /\ 0 <= o_sow o <= 100.
Proof.
  eexists. split; [vm_compute; left; reflexivity|].
  apply (capture_nonneg_bounds 20250101 20250401 None "X" 1 All (fun _ => None)
           [mkLine (Some 1%nat) 1 20250110 "X" None (Some "FOOD") None (Some 40) None;
            mkLine (Some 1%nat) 2 20250111 "Y" None (Some "FOOD") None (Some 60) None]).
  - intros ln [<-|[<-|[]]]; unfold line_amount; simpl; lra.
  - vm_compute. left. reflexivity.
Defined.

End CaptureExtra.

Lemma assoc_In {K A} (eqb : K -> K -> bool) (eqb_spec : forall x y, reflect (x = y) (eqb x y))
    (k : K) (gs : list (K * list A)) ms :
  assoc eqb k gs = Some ms -> In (k, ms) gs.
Proof.
  induction gs as [|[k' ms'] t IH]; simpl; [discriminate|].
  destruct (eqb_spec k' k) as [->|_]; [intros H; inversion H; auto | auto].
Qed.

Lemma NoDup_map_filter {T U} (g : T -> U) p l :
  NoDup (map g l) -> NoDup (map g (filter p l)).
Proof.
  induction l as [|a l IH]; simpl; intros H; [constructor|].
  inversion H as [|? ? Hn Hd]; subst.
  destruct (p a); simpl; [|apply IH, Hd].
  constructor; [|apply IH, Hd]. intros Hin. apply Hn.
  apply in_map_iff in Hin. destruct Hin as [b [Hb Hbin]].
  apply in_map_iff. exists b. split; [exact Hb|]. apply filter_In in Hbin. tauto.
Qed.

Lemma In_firstn {T} (a : T) n l : In a (firstn n l) -> In a l.
Proof.
  intros H. rewrite <- (firstn_skipn n l). apply in_or_app. left. exact H.
Qed.

Lemma NoDup_map_firstn {T U} (g : T -> U) n l :
  NoDup (map g l) -> NoDup (map g (firstn n l)).
Proof.
  revert l; induction n as [|n IH]; intros l H; simpl; [constructor|].
  destruct l as [|a l]; simpl; [constructor|].
  inversion H as [|? ? Hn Hd]; subst. constructor; [|apply IH, Hd].
  intros Hin. apply Hn. apply in_map_iff in Hin. destruct Hin as [b [Hb Hbin]].
  apply in_map_iff. exists b. split; [exact Hb|]. apply (In_firstn b n l Hbin).
Qed.

Lemma pct_range a b :
  0 <= a <= b -> forall p, option_map pg_round2 (div_nullif (100 * a) b) = Some p ->
  0 <= p <= 100.
Proof.
  intros Hab p Hp.
  pose proof (CaptureShape.sow_range a b Hab) as H. rewrite Hp in H. exact H.
Qed.

Lemma nat_Q_le (a b : nat) : (a <= b)%nat -> 0 <= inject_Z (Z.of_nat a) <= inject_Z (Z.of_nat b).
Proof.
  intros H. rewrite <- (Zle_Qle 0%Z), <- Zle_Qle. lia.
Qed.

Module LoyaltyExtra.
Import Loyalty.

(** X16: [brand_final] of the loyalty query has distinct brands, preserves the total number of buyers, keeps every named brand with at least k buyers, and has an [UNKNOWN] row whenever an [UNKNOWN] brand is present. *)
Theorem loyalty_brand_rows k aggs :
  let rows := brand_final k aggs in
  NoDup (map br_brand rows) /\
  fold_right Nat.add 0%nat (map br_buyers rows) = fold_right Nat.add 0%nat (map ba_buyers aggs) /\
  (forall r, In r rows -> br_brand r <> "OTHER_SUPPRESSED" -> br_brand r <> "UNKNOWN" ->
     (k <= br_buyers r)%nat) /\
  (forall a, In a aggs -> ba_brand a = "UNKNOWN" ->
     exists r, In r rows /\ br_brand r = "UNKNOWN").
Proof.
  cbv zeta. unfold brand_final.
  set (gb := group_by String.eqb (merge_key k) aggs).
  split; [|split; [|split]].
  - rewrite map_map. rewrite (map_ext _ fst) by (intros [b ms]; reflexivity).
    apply (nodup_group_by String.eqb (merge_key k) String.eqb_spec).
  - rewrite map_map.
    rewrite (map_ext _ (fun g => fold_right Nat.add 0%nat (map ba_buyers (snd g))))
      by (intros [b ms]; reflexivity).
    apply nat_sum_group_by.
  - intros r Hr Ho Hu. apply in_map_iff in Hr. destruct Hr as [[key ms] [<- Hin]].
    destruct (group_by_members String.eqb (merge_key k) String.eqb_spec aggs key ms Hin)
      as [Hne Hm].
    simpl in Ho, Hu |- *. destruct ms as [|m0 ms']; [congruence|].
    destruct (Hm m0 (or_introl eq_refl)) as [Hk _].
    unfold merge_key in Hk.
    destruct (Nat.ltb_spec (ba_buyers m0) k), (String.eqb_spec (ba_brand m0) "UNKNOWN");
      simpl in Hk; try congruence;
      pose proof (in_nat_sum ba_buyers m0 (m0 :: ms') (or_introl eq_refl)); lia.
  - intros a Ha Hb.
    assert (Hk : merge_key k a = "UNKNOWN").
    { unfold merge_key. rewrite Hb. simpl. rewrite andb_false_r. reflexivity. }
    pose proof (assoc_group_by String.eqb (merge_key k) String.eqb_spec aggs "UNKNOWN") as E.
    destruct (filter (fun a0 => String.eqb (merge_key k a0) "UNKNOWN") aggs) as [|m ms] eqn:F.
    + exfalso. assert (In a (filter (fun a0 => String.eqb (merge_key k a0) "UNKNOWN") aggs)).
      { apply filter_In. rewrite Hk. auto. }
      rewrite F in H. exact H.
    + apply (assoc_In String.eqb String.eqb_spec) in E.
      exists (mkBR "UNKNOWN" (fold_right Nat.add 0%nat (map ba_buyers (m :: ms)))
               (option_map pg_round2 (sql_avg (map ba_pen (m :: ms))))
               (option_map pg_round2 (sql_avg (map ba_p75 (m :: ms))))
               (fold_right Nat.add 0%nat (map ba_loyal (m :: ms)))).
      split; [|reflexivity].
      apply in_map_iff. exists ("UNKNOWN", m :: ms). split; [reflexivity | exact E].
Qed.

End LoyaltyExtra.

Module DeckExtra.
Import DeckLoyalty.

Lemma before_total a b : before a b = false -> before b a = true.
  Proof.
    unfold before.
    destruct (String.eqb (ba_brand a) "UNKNOWN"), (String.eqb (ba_brand b) "UNKNOWN");
      simpl; destruct (Nat.leb_spec (ba_buyers b) (ba_buyers a));
      destruct (Nat.leb_spec (ba_buyers a) (ba_buyers b)); simpl; intros Hb;
      try reflexivity; try discriminate; lia.
  Qed.

Lemma insert_by_ins a l : insert_by a l = ins before a l.
  Proof. induction l as [|y t IH]; simpl; [reflexivity|]. rewrite IH. reflexivity. Qed.

Lemma sort_by_perm l : Permutation (sort_by l) l.
  Proof.
    induction l as [|a t IH]; simpl; [auto|]. rewrite insert_by_ins.
    eapply perm_trans; [apply ins_perm | apply perm_skip, IH].
  Qed.

Lemma sort_by_sorted l : Sorted (fun a b => before a b = true) (sort_by l).
  Proof.
    induction l as [|a t IH]; simpl; [constructor|]. rewrite insert_by_ins.
    apply ins_sorted; [exact before_total | exact IH].
  Qed.

(** X17: the deck loyalty query returns at most 10 rows, ordered named brands by buyers descending and then [UNKNOWN], each an input brand with at least k buyers or [UNKNOWN], carrying the eligible-user count. *)
Theorem deck_loyalty_query_shape k el aggs :
  let rows := query k el aggs in
  (List.length rows <= 10)%nat /\
  Sorted (fun r1 r2 => before (mkBA (q_brand r1) (q_buyers r1))
                              (mkBA (q_brand r2) (q_buyers r2)) = true) rows /\
  (forall r, In r rows ->
     q_eligible r = el /\ ((k <= q_buyers r)%nat \/ q_brand r = "UNKNOWN") /\
     In (mkBA (q_brand r) (q_buyers r)) aggs).
Proof.
  cbv zeta. unfold query. split; [|split].
  - rewrite length_map. apply firstn_le_length.
  - apply (Sorted_map (fun r1 r2 => before (mkBA (q_brand r1) (q_buyers r1))
                                     (mkBA (q_brand r2) (q_buyers r2)) = true)).
    apply Sorted_firstn.
    apply (Sorted_weaken (fun a b => before a b = true)); [|apply sort_by_sorted].
    intros [b1 u1] [b2 u2] H. exact H.
  - intros r Hr. apply in_map_iff in Hr. destruct Hr as [[b u] [<- Hin]].
    apply In_firstn in Hin.
    apply (Permutation_in _ (sort_by_perm _)) in Hin.
    apply filter_In in Hin. destruct Hin as [Hin Hp]. simpl in Hp |- *.
    split; [reflexivity|]. split; [|exact Hin].
    apply orb_true_iff in Hp. destruct Hp as [Hp|Hp].
    + left. apply Nat.leb_le, Hp.
    + right. apply String.eqb_eq, Hp.
Qed.

End DeckExtra.

Module SwitchingExtra.
Import Switching.

Definition R_users (r y : Row) : bool := Nat.leb (r_users y) (r_users r).

Lemma R_users_total a b : R_users a b = false -> R_users b a = true.
  Proof. unfold R_users. intros H. apply Nat.leb_gt in H. apply Nat.leb_le. lia. Qed.

Lemma sw_insert_desc_ins r l : insert_desc r l = ins R_users r l.
  Proof. induction l as [|y t IH]; simpl; [reflexivity|]. rewrite IH. reflexivity. Qed.

Lemma sw_sort_desc_perm l : Permutation (sort_desc l) l.
  Proof.
    induction l as [|r t IH]; simpl; [auto|]. rewrite sw_insert_desc_ins.
    eapply perm_trans; [apply ins_perm | apply perm_skip, IH].
  Qed.

Lemma sw_sort_desc_sorted l : Sorted (fun a b => (r_users b <= r_users a)%nat) (sort_desc l).
  Proof.
    apply (Sorted_weaken (fun a b => R_users a b = true)).
    - intros a b H. apply Nat.leb_le, H.
    - induction l as [|r t IH]; simpl; [constructor|]. rewrite sw_insert_desc_ins.
      apply ins_sorted; [exact R_users_total | exact IH].
  Qed.

Lemma NoDup_map_perm {T U} (g : T -> U) l l' :
  Permutation l l' -> NoDup (map g l') -> NoDup (map g l).
  Proof.
    intros Hp Hn. apply (Permutation_NoDup (l := map g l')); [|exact Hn].
    apply Permutation_map, Permutation_sym, Hp.
  Qed.

Lemma elsewhere_users s e f x lines p :
  In p (elsewhere s e f x lines) -> In (fst p) (cohort s e x lines).
  Proof.
    unfold elsewhere. intros H. apply in_map_iff in H. destruct H as [ln [<- H]].
    apply filter_In in H. destruct H as [_ H]. simpl.
    destruct (in_dec Nat.eq_dec (user_of ln) (cohort s e x lines)) as [Hi|Hi];
      [exact Hi|]. simpl in H. rewrite andb_false_r in H. simpl in H. discriminate.
  Qed.

Lemma nodup_nonempty (l : list nat) : l <> [] -> (1 <= List.length (nodup Nat.eq_dec l))%nat.
  Proof.
    destruct l as [|a t]; [congruence|]. intros _.
    destruct (nodup Nat.eq_dec (a :: t)) eqn:E; simpl; [|lia].
    exfalso. assert (In a (nodup Nat.eq_dec (a :: t))) by (apply nodup_In; left; auto).
    rewrite E in H. exact H.
  Qed.

(** X18: the switching query returns at most 15 destinations, distinct, sorted by users descending, each with at least k and at most cohort-size users and a percentage in [0, 100]. *)
Theorem switching_query_shape s e f x k lines :
  let rows := query s e f x k lines in
  let n := List.length (cohort s e x lines) in
  (List.length rows <= 15)%nat /\
  Sorted (fun a b => (r_users b <= r_users a)%nat) rows /\
  NoDup (map r_dest rows) /\
  (forall r, In r rows ->
     (k <= r_users r)%nat /\ (1 <= r_users r <= n)%nat /\
     exists p, r_pct r = Some p /\ 0 <= p <= 100).
Proof.
  cbv zeta. unfold query.
  set (n := List.length (cohort s e x lines)).
  set (gs := group_by String.eqb snd (elsewhere s e f x lines)).
  split; [|split; [|split]].
  - apply firstn_le_length.
  - apply Sorted_firstn, sw_sort_desc_sorted.
  - apply NoDup_map_firstn.
    eapply NoDup_map_perm; [apply sw_sort_desc_perm|].
    apply NoDup_map_filter. rewrite map_map.
    rewrite (map_ext _ fst) by (intros [d ms]; reflexivity).
    apply (nodup_group_by String.eqb snd String.eqb_spec).
  - intros r Hr. apply In_firstn in Hr.
    apply (Permutation_in _ (sw_sort_desc_perm _)) in Hr.
    apply filter_In in Hr. destruct Hr as [Hr Hk].
    apply in_map_iff in Hr. destruct Hr as [[d ms] [<- Hin]].
    destruct (group_by_members String.eqb snd String.eqb_spec _ d ms Hin) as [Hne Hm].
    assert (Hle : (count_distinct (map fst ms) <= n)%nat).
    { unfold count_distinct, n. apply NoDup_incl_length; [apply NoDup_nodup|].
      intros u Hu. apply nodup_In, in_map_iff in Hu. destruct Hu as [p [<- Hp]].
      destruct (Hm p Hp) as [_ Hp']. apply (elsewhere_users s e f x lines p Hp'). }
    assert (H1 : (1 <= count_distinct (map fst ms))%nat).
    { apply nodup_nonempty. destruct ms; [congruence|]. discriminate. }
    simpl in Hk |- *. apply Nat.leb_le in Hk.
    split; [exact Hk|]. split; [lia|].
    unfold div_nullif.
    assert (Hn : Qeq_bool (inject_Z (Z.of_nat n)) 0 = false).
    { apply not_true_iff_false. intros E. apply Qeq_bool_iff in E.
      apply (inject_Z_injective (Z.of_nat n) 0) in E. lia. }
    rewrite Hn. simpl. eexists; split; [reflexivity|].
    pose proof (CaptureShape.sow_range (inject_Z (Z.of_nat (count_distinct (map fst ms))))
                  (inject_Z (Z.of_nat n))) as R.
    unfold div_nullif in R. rewrite Hn in R. simpl in R. apply R.
    split; [rewrite <- (Zle_Qle 0%Z) | rewrite <- Zle_Qle]; lia.
Qed.

End SwitchingExtra.

Module WaterfallExtra.
Import Waterfall WaterfallFacts.

Lemma count_le b trs : (count b trs <= List.length trs)%nat.
  Proof. unfold count. apply filter_length_le. Qed.

(** X19: every waterfall bucket has at most as many users as there are transitions and a percentage in [0, 100]. *)
Theorem waterfall_rows_bounded s e f x v lines :
  let trs := transitions x (base_txn s e f v lines) in
  let w := waterfall s e f x v lines in
  forall r, In r w -> (w_users r <= List.length trs)%nat /\ 0 <= w_pct r <= 100.
Proof.
  cbv zeta. unfold waterfall. rewrite waterfall_rows.
  - intros r Hr. apply in_map_iff in Hr. destruct Hr as [b [<- _]]. simpl.
    pose proof (count_le b (transitions x (base_txn s e f v lines))) as Hle.
    split; [exact Hle|].
    destruct (count b _) as [|c] eqn:E; [lra|].
    unfold pct_of. apply CaptureShape.sow_range.
    split; [rewrite <- (Zle_Qle 0%Z) | rewrite <- Zle_Qle]; lia.
Qed.

Lemma waterfall_rows_bounded_witness :
  exists r, In r (waterfall 20250101 20250401 None "X" "FOOD"
                   [mkLine (Some 1%nat) 1 20250110 "X" None (Some "FOOD") None (Some 100) None;
                    mkLine (Some 1%nat) 2 20250210 "X" None (Some "FOOD") None (Some 40) None]) /\
    w_bucket r = REDUCED_BASKET /\ w_users r = 1%nat /\ 0 <= w_pct r <= 100.
Proof.
  eexists. split; [vm_compute; right; right; left; reflexivity|].
  split; [reflexivity|]. split; [reflexivity|].
  apply (waterfall_rows_bounded 20250101 20250401 None "X" "FOOD"
           [mkLine (Some 1%nat) 1 20250110 "X" None (Some "FOOD") None (Some 100) None;
            mkLine (Some 1%nat) 2 20250210 "X" None (Some "FOOD") None (Some 40) None]).
  vm_compute. right. right. left. reflexivity.
Defined.

End WaterfallExtra.

Module ParamsFacts.
Import Params.

Fixpoint tl_list (l : list ascii) : list ascii :=
  match l with [] => [] | c :: t => if is_js_space c then tl_list t else l end.

Lemma trim_left_list s : list_ascii_of_string (trim_left s) = tl_list (list_ascii_of_string s).
Proof. induction s as [|c s IH]; simpl; [reflexivity|]. destruct (is_js_space c); simpl; auto. Qed.

Lemma js_trim_list s :
  js_trim s = string_of_list_ascii (rev (tl_list (rev (tl_list (list_ascii_of_string s))))).
Proof.
  unfold js_trim. rewrite trim_left_list, list_ascii_of_string_of_list_ascii,
    trim_left_list. reflexivity.
Qed.

Definition no_lead (l : list ascii) : Prop :=
  match l with [] => True | c :: _ => is_js_space c = false end.

Lemma tl_list_no_lead l : no_lead (tl_list l).
Proof. induction l as [|c t IH]; simpl; auto. destruct (is_js_space c) eqn:E; simpl; auto. Qed.

Lemma tl_list_id l : no_lead l -> tl_list l = l.
Proof. destruct l as [|c t]; simpl; auto. intros ->. reflexivity. Qed.

Lemma tl_list_idem l : tl_list (tl_list l) = tl_list l.
Proof. apply tl_list_id, tl_list_no_lead. Qed.

Lemma tl_list_suffix l : exists p, l = (p ++ tl_list l)%list.
Proof.
  induction l as [|c t [p IH]]; simpl.
  - exists []. reflexivity.
  - destruct (is_js_space c).
    + exists (c :: p). simpl. rewrite <- IH. reflexivity.
    + exists []. reflexivity.
Qed.

Lemma no_lead_rev_tl_rev w : no_lead w -> no_lead (rev (tl_list (rev w))).
Proof.
  intros Hw. destruct (tl_list_suffix (rev w)) as [p Hp].
  assert (E : w = (rev (tl_list (rev w)) ++ rev p)%list).
  { rewrite <- rev_app_distr, <- Hp, rev_involutive. reflexivity. }
  destruct (rev (tl_list (rev w))) as [|c t] eqn:R; simpl; auto.
  rewrite E in Hw. exact Hw.
Qed.

Lemma js_trim_idem s : js_trim (js_trim s) = js_trim s.
Proof.
  rewrite (js_trim_list (js_trim s)), (js_trim_list s), list_ascii_of_string_of_list_ascii.
  set (w := tl_list (list_ascii_of_string s)).
  assert (Hw : no_lead w) by apply tl_list_no_lead.
  rewrite (tl_list_id _ (no_lead_rev_tl_rev w Hw)), rev_involutive, tl_list_idem.
  reflexivity.
Qed.

Lemma digit_char_facts d : (0 <= d < 10)%Z ->
  is_js_space (digit_char d) = false /\ Ascii.eqb (digit_char d) "-"%char = false /\
  Ascii.eqb (digit_char d) "+"%char = false /\ Ascii.eqb (digit_char d) "x"%char = false /\
  Ascii.eqb (digit_char d) "X"%char = false /\ digit_val (digit_char d) = d.
Proof.
  intros H.
  assert (d = 0 \/ d = 1 \/ d = 2 \/ d = 3 \/ d = 4 \/ d = 5 \/ d = 6 \/ d = 7 \/ d = 8 \/ d = 9)%Z
    as Hd by lia.
  repeat destruct Hd as [-> | Hd]; [..|subst]; vm_compute; repeat split.
Qed.

Definition digit_ok (d : Z) : Prop := (0 <= d < 10)%Z.

Lemma dec_digits_range f n acc :
  Forall digit_ok acc -> (0 <= n)%Z -> Forall digit_ok (dec_digits f n acc).
Proof.
  revert n acc; induction f as [|f IH]; intros n acc Ha Hn; simpl; auto.
  destruct (n <? 10)%Z eqn:E.
  - apply Z.ltb_lt in E. constructor; [unfold digit_ok; lia | exact Ha].
  - apply IH; [constructor; [unfold digit_ok; apply Z.mod_pos_bound; lia | exact Ha]|].
    apply Z.div_pos; lia.
Qed.

Lemma dec_digits_cons f n a acc : dec_digits f n (a :: acc) <> [].
Proof.
  revert n a acc; induction f as [|f IH]; intros n a acc; simpl; [discriminate|].
  destruct (n <? 10)%Z; [discriminate | apply IH].
Qed.

Lemma dec_digits_nonempty f n acc : dec_digits (S f) n acc <> [].
Proof. simpl. destruct (n <? 10)%Z; [discriminate | apply dec_digits_cons]. Qed.

Lemma dec_digits_value f n acc :
  (0 <= n < 10 ^ Z.of_nat f)%Z ->
  digits_value 10 (dec_digits f n acc) = fold_left (fun a d => a * 10 + d)%Z acc n.
Proof.
  unfold digits_value. revert n acc; induction f as [|f IH]; intros n acc Hn; simpl.
  - simpl in Hn. replace n with 0%Z by lia. reflexivity.
  - destruct (n <? 10)%Z eqn:E; simpl; [reflexivity|].
    apply Z.ltb_ge in E. rewrite Nat2Z.inj_succ, Z.pow_succ_r in Hn by lia.
    rewrite IH by (split; [apply Z.div_pos; lia | apply Z.div_lt_upper_bound; lia]).
    simpl. f_equal. pose proof (Z.div_mod n 10). lia.
Qed.

Lemma log2_fuel n : (0 <= n)%Z -> (n < 10 ^ Z.of_nat (S (Z.to_nat (Z.log2 n))))%Z.
Proof.
  intros Hn. rewrite Nat2Z.inj_succ, Z2Nat.id by apply Z.log2_nonneg.
  destruct (Z.eq_dec n 0) as [->|Hne]; [simpl; lia|].
  pose proof (Z.log2_spec n ltac:(lia)) as [_ H2].
  assert (2 ^ Z.succ (Z.log2 n) <= 10 ^ Z.succ (Z.log2 n))%Z.
  { apply Z.pow_le_mono_l. lia. }
  lia.
Qed.

Lemma digits_of_chars ds :
  Forall digit_ok ds -> digits 10 (string_of_list_ascii (map digit_char ds)) = ds.
Proof.
  induction 1 as [|d ds Hd _ IH]; simpl; [reflexivity|].
  destruct (digit_char_facts d Hd) as (_ & _ & _ & _ & _ & ->).
  unfold digit_ok in Hd. destruct (Z.ltb_spec d 10); [|lia]. rewrite IH. reflexivity.
Qed.

Lemma parseInt_digits ds :
  Forall digit_ok ds -> ds <> [] ->
  js_parseInt (string_of_list_ascii (map digit_char ds)) = Some (digits_value 10 ds) /\
  js_parseInt (String "-" (string_of_list_ascii (map digit_char ds))) =
    Some (- digits_value 10 ds)%Z.
Proof.
  intros Hall Hne. destruct ds as [|d ds']; [congruence|].
  pose proof Hall as Hall'. inversion Hall' as [|? ? Hd Hrest]; subst.
  destruct (digit_char_facts d Hd) as (Hsp & Hm & Hp & Hx & HX & Hv).
  pose proof (digits_of_chars _ Hall) as Hdig.
  change (digits 10 (String (digit_char d) (string_of_list_ascii (map digit_char ds')))
          = d :: ds') in Hdig.
  assert (Hr : forall c t, string_of_list_ascii (map digit_char ds') = String c t ->
            Ascii.eqb c "x"%char || Ascii.eqb c "X"%char = false).
  { intros c t E. destruct ds' as [|d2 ds'']; [discriminate|].
    simpl in E. injection E as <- _. inversion Hrest; subst.
    destruct (digit_char_facts d2 ltac:(assumption)) as (_ & _ & _ & -> & -> & _).
    reflexivity. }
  change (string_of_list_ascii (map digit_char (d :: ds')))
    with (String (digit_char d) (string_of_list_ascii (map digit_char ds'))).
  remember (string_of_list_ascii (map digit_char ds')) as rest eqn:Er.
  assert (Hneg : trim_left (String "-" (String (digit_char d) rest)) =
                 String "-" (String (digit_char d) rest)) by reflexivity.
  unfold js_parseInt. rewrite Hneg. split.
  - cbn -[digits digits_value]. rewrite Hsp.
    cbn -[digits digits_value]. rewrite Hm, Hp.
    destruct rest as [|c t].
    + cbn -[digits digits_value]. rewrite Hdig. destruct (digits_value 10 (d :: ds')); reflexivity.
    + rewrite (Hr c t eq_refl), andb_false_r. cbn -[digits digits_value].
      rewrite Hdig. destruct (digits_value 10 (d :: ds')); reflexivity.
  - cbn -[digits digits_value].
    destruct rest as [|c t].
    + cbn -[digits digits_value]. rewrite Hdig. destruct (digits_value 10 (d :: ds')); reflexivity.
    + rewrite (Hr c t eq_refl), andb_false_r. cbn -[digits digits_value].
      rewrite Hdig. destruct (digits_value 10 (d :: ds')); reflexivity.
Qed.

Lemma parseInt_string_of_Z z : js_parseInt (js_string_of_Z z) = Some z.
Proof.
  unfold js_string_of_Z.
  set (ds := dec_digits _ (Z.abs z) []).
  assert (Hall : Forall digit_ok ds) by (apply dec_digits_range; [constructor | lia]).
  assert (Hne : ds <> []) by apply dec_digits_nonempty.
  assert (Hv : digits_value 10 ds = Z.abs z).
  { unfold ds. rewrite dec_digits_value; [reflexivity|].
    split; [lia | apply log2_fuel; lia]. }
  destruct (parseInt_digits ds Hall Hne) as [H1 H2].
  destruct (Z.ltb_spec z 0).
  - rewrite H2, Hv. f_equal. lia.
  - rewrite H1, Hv. f_equal. lia.
Qed.

(** X1: a value accepted by [parseString] is non-empty and already trimmed, and parsing it again gives it back. *)
Theorem parseString_trimmed v t :
  parseString v = Some t -> t <> "" /\ js_trim t = t /\ parseString (JStr t) = Some t.
Proof.
  destruct v as [| | |s]; simpl; try discriminate.
  destruct (String.eqb_spec (js_trim s) "") as [_|Hne]; [discriminate|].
  intros H; inversion H; subst t. rewrite js_trim_idem.
  destruct (String.eqb_spec (js_trim s) "") as [E|_]; [contradiction|].
  auto.
Qed.

Lemma parseString_trimmed_witness :
  parseString (JStr " 1790 ") = Some "1790" /\ "1790" <> "" /\ js_trim "1790" = "1790" /\
  parseString (JStr "1790") = Some "1790".
Proof.
  split; [reflexivity | apply (parseString_trimmed (JStr " 1790 ") "1790"); reflexivity].
Defined.

(** X2: [normDim] is idempotent; its result is never empty and has no surrounding white space. *)
Theorem normDim_idem v :
  normDim (Some (normDim v)) = normDim v /\ normDim v <> "" /\ js_trim (normDim v) = normDim v.
Proof.
  destruct v as [s|]; [|split; [reflexivity | split; [discriminate | reflexivity]]].
  unfold normDim.
  destruct (String.eqb (js_trim s) "" || String.eqb (js_to_lower (js_trim s)) "null") eqn:E.
  - split; [reflexivity | split; [discriminate | reflexivity]].
  - rewrite js_trim_idem, E.
    apply orb_false_iff in E. destruct E as [E _]. apply String.eqb_neq in E. auto.
Qed.

(** X3: [parseBool] maps [true], ['true'] and ['1'] to [true] and [false], ['false'] and ['0'] to [false], whatever the default; on any other value it returns the default. *)
Theorem parseBool_outcomes v d :
  parseBool (JBool true) d = Some true /\ parseBool (JStr "true") d = Some true /\
  parseBool (JStr "1") d = Some true /\
  parseBool (JBool false) d = Some false /\ parseBool (JStr "false") d = Some false /\
  parseBool (JStr "0") d = Some false /\
  (parseBool v d = d \/
   (parseBool v d = Some true /\ (v = JBool true \/ v = JStr "true" \/ v = JStr "1")) \/
   (parseBool v d = Some false /\ (v = JBool false \/ v = JStr "false" \/ v = JStr "0"))).
Proof.
  split; [reflexivity|]. split; [reflexivity|]. split; [reflexivity|].
  split; [reflexivity|]. split; [reflexivity|]. split; [reflexivity|].
  destruct v as [| |b|s]; simpl; auto.
  - destruct b; auto.
  - destruct (String.eqb_spec s ""); auto.
    destruct (String.eqb_spec s "true"); simpl; [subst; right; left; auto|].
    destruct (String.eqb_spec s "1"); simpl; [subst; right; left; auto|].
    destruct (String.eqb_spec s "false"); simpl; [subst; right; right; auto|].
    destruct (String.eqb_spec s "0"); simpl; [subst; right; right; auto|]. auto.
Qed.

(** X4: the legacy [parseBool] of [part_001] (where ['all'] means [null]) agrees with the v2.2 [parseBool] called with a [null] default. *)
Theorem parseBool_legacy_agrees v : parseBool_legacy v = parseBool v None.
Proof.
  destruct v as [| |b|s]; simpl; auto.
  destruct (String.eqb s ""); simpl; [reflexivity|].
  destruct (String.eqb_spec s "all") as [->|_]; simpl; [reflexivity|].
  destruct (String.eqb s "true" || String.eqb s "1"); [reflexivity|].
  destruct (String.eqb s "false" || String.eqb s "0"); reflexivity.
Qed.

(** X5: [parseKThreshold] always returns at least 1, and it reads back any integer k with 1 <= k <= 2^53 printed by [String(k)]. *)
Theorem parseKThreshold_at_least_1 v :
  (1 <= parseKThreshold v)%Z /\
  (forall k, (1 <= k <= 2 ^ 53)%Z -> parseKThreshold (JStr (js_string_of_Z k)) = k).
Proof.
  split.
  - unfold parseKThreshold. destruct (js_parseInt _) as [k|]; [|lia].
    destruct (Z.ltb_spec k 1); lia.
  - intros k Hk. unfold parseKThreshold. simpl. rewrite parseInt_string_of_Z.
    destruct (Z.ltb_spec k 1); lia.
Qed.

(** X6: for an input the client parses to an integer k with |k| <= 2^53, the [k_threshold] it builds ([parseInt(v) || 5]), printed and parsed again by [parseKThreshold], is k when k >= 1 and 5 otherwise. *)
Theorem client_server_k input k :
  js_parseInt input = Some k -> (Z.abs k <= 2 ^ 53)%Z ->
  parseKThreshold (JStr (js_string_of_Z (client_k input))) = if (k <? 1)%Z then 5%Z else k.
Proof.
  intros H _. unfold parseKThreshold, client_k. simpl. rewrite H.
  destruct (Z.eqb_spec k 0) as [->|Hk]; rewrite parseInt_string_of_Z; [reflexivity|].
  reflexivity.
Qed.

Lemma client_server_k_witness :
  js_parseInt " -3" = Some (-3)%Z /\ (Z.abs (-3) <= 2 ^ 53)%Z /\
  parseKThreshold (JStr (js_string_of_Z (client_k " -3"))) = 5%Z.
Proof.
  split; [reflexivity|]. split; [lia|].
  apply (client_server_k " -3" (-3)%Z); [reflexivity | lia].
Defined.

End ParamsFacts.

Module ClientFacts.

Lemma Qle_bool_false a b : Qle_bool a b = false <-> b < a.
Proof.
  split; intros H.
  - apply Qnot_le_lt. intros H'. apply Qle_bool_iff in H'. congruence.
  - destruct (Qle_bool a b) eqn:E; [|reflexivity]. apply Qle_bool_iff in E. lra.
Qed.

Ltac qbool :=
  repeat match goal with
  | H : Qle_bool _ _ = true |- _ => apply Qle_bool_iff in H
  | H : Qle_bool _ _ = false |- _ => apply Qle_bool_false in H
  | H : Qeq_bool _ _ = true |- _ => apply Qeq_bool_iff in H
  | H : Qeq_bool _ _ = false |- _ => apply Qeq_bool_neq in H
  end.

Lemma Qle_bool_num_or_0 t q : Qle_bool t (Client.num_or (Some q) 0) = Qle_bool t q.
Proof.
  unfold Client.num_or. destruct (Qeq_bool q 0) eqn:E; [|reflexivity].
  destruct (Qle_bool t 0) eqn:A, (Qle_bool t q) eqn:B; auto; qbool; lra.
Qed.

(** X7: [calculateTrustLevel] gives [HIGH] only when users >= 10 and coverage >= 80 are given numbers; a reconcile value of 0 or NaN acts as 100; the level is monotone in users and coverage. *)
Theorem trust_level_props :
  (forall u c r, Client.calculateTrustLevel u c r = "HIGH" ->
     exists qu qc, u = Some qu /\ c = Some qc /\ 10 <= qu /\ 80 <= qc) /\
  (forall u c, Client.calculateTrustLevel u c (Some 0) = Client.calculateTrustLevel u c (Some 100) /\
               Client.calculateTrustLevel u c None = Client.calculateTrustLevel u c (Some 100)) /\
  (forall qu qu' qc qc' r, qu <= qu' -> qc <= qc' ->
     (Client.trust_rank (Client.calculateTrustLevel (Some qu) (Some qc) r) <=
      Client.trust_rank (Client.calculateTrustLevel (Some qu') (Some qc') r))%nat).
Proof.
  split; [|split].
  - intros u c r H. unfold Client.calculateTrustLevel in H.
    destruct u as [qu|], c as [qc|]; rewrite ?Qle_bool_num_or_0 in H; cbn [Client.num_or] in H;
      repeat match type of H with context [Qle_bool ?a ?b] =>
        let E := fresh "E" in destruct (Qle_bool a b) eqn:E end;
      simpl in H; try discriminate; qbool; try lra.
    exists qu, qc. repeat split; assumption.
  - intros u c. unfold Client.calculateTrustLevel. split; reflexivity.
  - intros qu qu' qc qc' r Hu Hc. unfold Client.calculateTrustLevel.
    rewrite !Qle_bool_num_or_0.
    destruct (Qle_bool 10 qu) eqn:A1, (Qle_bool 10 qu') eqn:A2,
      (Qle_bool 80 qc) eqn:B1, (Qle_bool 80 qc') eqn:B2,
      (Qle_bool 5 qu) eqn:C1, (Qle_bool 5 qu') eqn:C2,
      (Qle_bool 60 qc) eqn:D1, (Qle_bool 60 qc') eqn:D2; simpl;
      try (qbool; lra);
      destruct (Qle_bool 90 (Client.num_or r 100)); vm_compute; lia.
Qed.

(** X8: [getDqStatus] is monotone in the value (bad < warning < good), and NaN gives [bad]. *)
Theorem dq_status_monotone :
  (forall v v' t, v <= v' ->
     (Client.dq_rank (Client.getDqStatus (Some v) t) <=
      Client.dq_rank (Client.getDqStatus (Some v') t))%nat) /\
  (forall t, Client.getDqStatus None t = "bad").
Proof.
  split; [|reflexivity].
  intros v v' t H. unfold Client.getDqStatus, Client.js_ge.
  destruct (Qle_bool t v) eqn:A, (Qle_bool t v') eqn:B,
    (Qle_bool (t - 10) v) eqn:C, (Qle_bool (t - 10) v') eqn:D; qbool;
    try lra; vm_compute; lia.
Qed.

(** X9: [formatDelta] gives no delta exactly when [previous] is 0, and otherwise the class is [positive] exactly when the relative change is non-negative, i.e. [previous <= current] for a positive previous and [current <= previous] for a negative one. *)
Theorem format_delta_class c p :
  (Client.formatDelta (Some c) (Some p) = None <-> p == 0) /\
  match Client.formatDelta (Some c) (Some p) with
  | None => p == 0
  | Some d => (Client.dl_class d = "positive" <-> (0 < p /\ p <= c) \/ (p < 0 /\ c <= p))
  end.
Proof.
  split.
  { unfold Client.formatDelta.
    destruct (Qeq_bool p 0) eqn:E; qbool; split; intros H;
      [assumption | reflexivity | discriminate | contradiction]. }
  unfold Client.formatDelta, Client.js_ge. simpl.
  destruct (Qeq_bool p 0) eqn:E; qbool; [assumption|]. simpl.
  destruct (Qle_bool 0 ((c - p) / p * 100)) eqn:F; qbool; simpl.
  - split; [intros _|reflexivity].
    destruct (Qlt_le_dec 0 p) as [Hp|Hp].
    + left. split; [assumption|].
      assert (0 <= (c - p) / p) by lra.
      assert (0 <= (c - p) / p * p) by (apply Qmult_le_0_compat; lra).
      assert ((c - p) / p * p == c - p) by (field; intro; lra).
      lra.
    + right. assert (Hn : p < 0) by (destruct (Qeq_dec p 0); [contradiction | lra]).
      split; [assumption|].
      assert (0 <= (c - p) / p) by lra.
      assert (0 <= (c - p) / p * (- p)) by (apply Qmult_le_0_compat; lra).
      assert ((c - p) / p * (- p) == - (c - p)) by (field; assumption).
      lra.
  - split; [discriminate|]. intros [[Hp Hc] | [Hp Hc]]; exfalso.
    + assert (0 <= (c - p) / p) by (apply Qle_shift_div_l; lra). lra.
    + assert (0 <= (c - p) / p).
      { assert ((c - p) / p == (p - c) / (- p)) by (field; lra).
        rewrite H. apply Qle_shift_div_l; lra. }
      lra.
Qed.

(** X10: a truthy [issuer_ruc:] override for a non-empty issuer is returned as the factor with source [override:issuer_ruc], whatever the category override. *)
Theorem expansion_issuer_override d j i c v :
  Expansion.get j ("issuer_ruc:" ++ i) = Some (Some v) ->
  Expansion.truthy (Some v) = true -> i <> "" ->
  Expansion.getExpansionFactor d (Some (Some j)) (Some i) c = Some (v, "override:issuer_ruc").
Proof.
  intros Hg Ht Hi.
  assert (Hti : Expansion.js_truthy_str (Some i) = true).
  { unfold Expansion.js_truthy_str. destruct (String.eqb_spec i ""); [contradiction | reflexivity]. }
  unfold Expansion.getExpansionFactor. cbn [Expansion.config_overrides].
  rewrite Hti, Hg, Ht. reflexivity.
Qed.

Lemma expansion_issuer_override_witness :
  Expansion.getExpansionFactor None
    (Some (Some (Expansion.JObj [("issuer_ruc:179", Expansion.JNum (6 # 5));
                                 ("category_l1:FOOD", Expansion.JNum 2)])))
    (Some "179") (Some "FOOD") = Some (Expansion.JNum (6 # 5), "override:issuer_ruc").
Proof.
  apply (expansion_issuer_override None
    (Expansion.JObj [("issuer_ruc:179", Expansion.JNum (6 # 5));
                     ("category_l1:FOOD", Expansion.JNum 2)])
    "179" (Some "FOOD") (Expansion.JNum (6 # 5))); [reflexivity | reflexivity | discriminate].
Defined.

(** X11: with no overrides (unset or unparseable) [getExpansionFactor] returns the default factor, which is never 0; a [null] overrides value makes it throw for a non-empty issuer. *)
Theorem expansion_fallbacks d i c a s :
  Expansion.getExpansionFactor d None i c =
    Some (Expansion.JNum (Expansion.config_default d), "default") /\
  Expansion.getExpansionFactor d (Some None) i c =
    Some (Expansion.JNum (Expansion.config_default d), "default") /\
  ~ (Expansion.config_default d == 0) /\
  Expansion.getExpansionFactor d (Some (Some Expansion.JNull)) (Some (String a s)) c = None.
Proof.
  assert (Hd : forall e, Expansion.config_overrides e = Expansion.JObj [] ->
     Expansion.getExpansionFactor d e i c =
       Some (Expansion.JNum (Expansion.config_default d), "default")).
  { intros e He. unfold Expansion.getExpansionFactor. rewrite He.
    destruct (Expansion.js_truthy_str i), (Expansion.js_truthy_str c); reflexivity. }
  split; [apply Hd; reflexivity|]. split; [apply Hd; reflexivity|]. split.
  - unfold Expansion.config_default, Client.num_or.
    destruct d as [q|]; [destruct (Qeq_bool q 0) eqn:E|]; qbool;
      [intro H; lra | assumption | intro H; lra].
  - reflexivity.
Qed.

(** X12: the drill-down column of [parseFilters] is always one of the eight category columns; the level stays the requested one when no path level is set, and is l2, l3 or l4 otherwise. *)
Theorem drill_down_levels dom lvl l1 l2 l3 l4 :
  let g := DrillDown.groupByLevel lvl l1 l2 l3 l4 in
  In (DrillDown.resolveCatCol dom g)
     ["category_l1"; "category_l2"; "category_l3"; "category_l4";
      "commerce_l1"; "commerce_l2"; "commerce_l3"; "commerce_l4"] /\
  (DrillDown.truthy l1 || DrillDown.truthy l2 || DrillDown.truthy l3 ||
   DrillDown.truthy l4 = false -> g = lvl) /\
  (DrillDown.truthy l1 || DrillDown.truthy l2 || DrillDown.truthy l3 ||
   DrillDown.truthy l4 = true -> g = "l2" \/ g = "l3" \/ g = "l4").
Proof.
  cbv zeta. split; [|split].
  - unfold DrillDown.resolveCatCol.
    set (g := DrillDown.groupByLevel lvl l1 l2 l3 l4).
    destruct (String.eqb_spec g "l1") as [->|_]; [destruct (String.eqb dom "commerce"); simpl; tauto|].
    destruct (String.eqb_spec g "l2") as [->|_]; [destruct (String.eqb dom "commerce"); simpl; tauto|].
    destruct (String.eqb_spec g "l3") as [->|_]; [destruct (String.eqb dom "commerce"); simpl; tauto|].
    destruct (String.eqb_spec g "l4") as [->|_]; destruct (String.eqb dom "commerce"); simpl; tauto.
  - unfold DrillDown.groupByLevel.
    destruct (DrillDown.truthy l1), (DrillDown.truthy l2), (DrillDown.truthy l3),
      (DrillDown.truthy l4); simpl; congruence.
  - unfold DrillDown.groupByLevel.
    destruct (DrillDown.truthy l1), (DrillDown.truthy l2), (DrillDown.truthy l3),
      (DrillDown.truthy l4); simpl; try discriminate; auto.
Qed.

End ClientFacts.
